(** * dml: descriptive statistics and vector rescaling over a CSV table

    A shallow embedding of [dml.c] (CodeWikiOrg/dml) and the properties its
    specification states about it.

    Conventions of the embedding
    - C [int] values are [Z]; [/] and [%] are the truncating [Z.quot] and
      [Z.rem]; a subtraction that may leave the 32-bit range is checked.
    - C [float] is an abstract carrier [F] with the operations the source
      uses ([FloatArith]).  Two instances are given: IEEE-754 binary32 with
      round-to-nearest-even ([b32], on the Standard Library's [SpecFloat]),
      and exact rational arithmetic ([Qc]).
    - A computation that would read or write outside an object, divide an
      integer by zero or overflow an [int] has no defined behaviour in C and
      yields [None]; everything else yields [Some] result.
    - [malloc] of a non-negative number of floats succeeds and returns a
      buffer whose cells hold indeterminate values ([fresh_cell]); [free]
      has no observable effect in the embedding.
    - In the binary32 instance every operation rounds to [float] at once:
      no wider intermediate precision, no fused multiply-add.
    - What is stated of the program is stated for every arithmetic or for
      binary32.  The rationals are a second instance: they run the examples
      and carry the remarks on what exact arithmetic would give. *)

From Stdlib Require Import ZArith List Lia QArith Qabs Qcanon Field Ascii String.
From Stdlib Require Import Floats.SpecFloat.
From stdpp Require Import base option list numbers strings pretty sorting.

Local Open Scope Z_scope.

(** ** Machine integers *)

Definition INT_MIN : Z := - 2 ^ 31.
Definition INT_MAX : Z := 2 ^ 31 - 1.
Definition RAND_MAX : Z := 2 ^ 31 - 1.

Definition in_int (z : Z) : bool := (INT_MIN <=? z) && (z <=? INT_MAX).

(** [a - b] on [int]: signed overflow is undefined. *)
Definition int_sub (a b : Z) : option Z :=
  if in_int (a - b) then Some (a - b) else None.

(** [a % b] on [int]. *)
Definition int_rem (a b : Z) : option Z :=
  if (b =? 0) || ((a =? INT_MIN) && (b =? -1)) then None else Some (Z.rem a b).

(** [a / b] on [int]. *)
Definition int_quot (a b : Z) : option Z :=
  if (b =? 0) || ((a =? INT_MIN) && (b =? -1)) then None else Some (Z.quot a b).

Definition b2z (b : bool) : Z := if b then 1 else 0.

(** ** Floating-point interface *)

Class FloatArith (F : Type) := {
  f_of_int : Z → F;            (* conversion int -> float, also of literals *)
  f_add : F → F → F;
  f_sub : F → F → F;
  f_mul : F → F → F;
  f_div : F → F → F;
  f_lt : F → F → bool;         (* a < b *)
  f_gt : F → F → bool;         (* a > b *)
}.

(** Contents of freshly allocated memory, cell by cell. *)
Class FreshMemory (F : Type) := fresh_cell : nat → F.

(** [printf] with the conversion [%W.Pf]: width [W], precision [P]. *)
Class FloatPrint (F : Type) := printf_f : nat → nat → F → string.

(** The C library's pseudo-random generator: [srand] installs a state,
    [rand] draws from it and advances it. *)
Class LibcRand := {
  rand_state : Type;
  srand : Z → rand_state;
  rand : rand_state → Z * rand_state;
}.

(** [rand] returns a value between 0 and [RAND_MAX]. *)
Definition rand_in_range `{LibcRand} : Prop :=
  ∀ g : rand_state, 0 <= (rand g).1 <= RAND_MAX.

Definition nl : string := String "010"%char "".
Definition tab : string := String "009"%char "".

(** ** Control flow *)

(** [for (i = lo; ...; i++) body], [n] iterations. *)
Fixpoint for_up {St : Type} (n : nat) (i : Z) (body : Z → St → option St) (s : St)
  : option St :=
  match n with
  | O => Some s
  | S n' => s' ← body i s; for_up n' (i + 1) body s'
  end.

(** [for (i = hi; ...; i--) body], [n] iterations. *)
Fixpoint for_down {St : Type} (n : nat) (i : Z) (body : Z → St → option St) (s : St)
  : option St :=
  match n with
  | O => Some s
  | S n' => s' ← body i s; for_down n' (i - 1) body s'
  end.

(** [for (i = lo; i < hi; i++) body]: the test succeeds [hi - lo] times. *)
Definition for_lt {St : Type} (lo hi : Z) (body : Z → St → option St) (s : St)
  : option St :=
  for_up (Z.to_nat (hi - lo)) lo body s.

(** [for (i = hi; i > lo; i--) body]: the test succeeds [hi - lo] times. *)
Definition for_gt {St : Type} (hi lo : Z) (body : Z → St → option St) (s : St)
  : option St :=
  for_down (Z.to_nat (hi - lo)) hi body s.

(** ** The table *)

(** Modelled from the spec: [csvData_t] is declared in [open_csv.h], which is
    not part of the sources; the spec's data model gives it a row count, a
    column count and indexed access to a rectangular array of floats, and
    the source reads the fields [rows], [cols] and [dataFrame]. *)
Record csvData_t (F : Type) := mk_csv {
  rows : Z;
  cols : Z;
  dataFrame : list (list F);
}.
Arguments mk_csv {F} _ _ _.
Arguments rows {F} _.
Arguments cols {F} _.
Arguments dataFrame {F} _.

Section Dml.
Context {F : Type} `{FloatArith F} `{FreshMemory F}.

(** [df->dataFrame[row][col]] *)
Definition cell (df : csvData_t F) (row col : Z) : option F :=
  if (0 <=? row) && (0 <=? col)
  then r ← dataFrame df !! Z.to_nat row; r !! Z.to_nat col
  else None.

(** [(float * )malloc(sizeof(float) * len)]; a negative [len] converts to
    a size no allocator serves. *)
Definition malloc_floats (len : Z) : option (list F) :=
  if 0 <=? len then Some (fresh_cell <$> seq 0 (Z.to_nat len)) else None.

(** [*(buf + i) = x] *)
Definition store (buf : list F) (i : Z) (x : F) : option (list F) :=
  if (0 <=? i) && (i <? Z.of_nat (length buf))
  then Some (<[Z.to_nat i := x]> buf)
  else None.

(** [*(buf + i)] *)
Definition load (buf : list F) (i : Z) : option F :=
  if 0 <=? i then buf !! Z.to_nat i else None.

Definition createFloatVector (len : Z) : option (list F) :=
  malloc_floats len.

Definition mean (df : csvData_t F) (col : Z) : option F :=
  sum ← for_lt 0 (rows df)
          (λ row sum, x ← cell df row col; Some (f_add sum x))
          (f_of_int 0);
  Some (f_div sum (f_of_int (rows df))).

Definition compareVectors (a b : F) : Z :=
  b2z (f_gt a b) - b2z (f_lt a b).

(** The C library's [qsort(base, nmemb, sizeof(float), compar)].  The
    standard fixes the result only as a rearrangement that is ascending
    for [compar]; it is represented here by insertion sort. *)
Fixpoint qsort_insert (compar : F → F → Z) (x : F) (l : list F) : list F :=
  match l with
  | [] => [x]
  | y :: l' => if compar x y <=? 0 then x :: l else y :: qsort_insert compar x l'
  end.

Definition qsort (base : list F) (nmemb : Z) (compar : F → F → Z)
  : option (list F) :=
  if (0 <=? nmemb) && (nmemb <=? Z.of_nat (length base))
  then Some (foldr (qsort_insert compar) [] (take (Z.to_nat nmemb) base)
             ++ drop (Z.to_nat nmemb) base)
  else None.

Definition median (df : csvData_t F) (col : Z) : option F :=
  sortedFeature ← createFloatVector (rows df);
  sortedFeature ← for_lt 0 (rows df)
                    (λ index buf, x ← cell df index col; store buf index x)
                    sortedFeature;
  sortedFeature ← qsort sortedFeature (rows df) compareVectors;
  r ← int_rem (rows df) 2;
  if r =? 1
  then i ← int_sub (rows df) 1;
       i ← int_quot i 2;
       cell df i col
  else i ← int_quot (rows df) 2;
       a ← cell df i col;
       j ← int_sub i 1;
       b ← cell df j col;
       Some (f_div (f_add a b) (f_of_int 2)).

Definition standardDeviation (df : csvData_t F) (col : Z) : option F :=
  meanVal ← mean df col;
  sum ← for_lt 0 (rows df)
          (λ row sum,
             x ← cell df row col;
             let distance := f_sub x meanVal in
             Some (f_add sum (f_mul distance distance)))
          (f_of_int 0);
  Some (f_div sum (f_of_int (rows df))).

Definition scaleToUnity (vector : list F) (vectorLen : Z)
    (lowerBound upperBound : F) : option (list F) :=
  unity ← malloc_floats vectorLen;
  for_lt 0 vectorLen
    (λ loop unity,
       x ← load vector loop;
       store unity loop (f_div x (f_sub upperBound lowerBound)))
    unity.

Definition scaleVector (vector : list F) (vectorLen : Z)
    (lowerBound upperBound newLowBound newUpBound : F) : option (list F) :=
  scaledDownVector ← malloc_floats vectorLen;
  let scale := f_div (f_sub newUpBound newLowBound)
                     (f_sub upperBound lowerBound) in
  let offset := f_sub newLowBound (f_mul scale lowerBound) in
  for_lt 0 vectorLen
    (λ loop scaledDownVector,
       x ← load vector loop;
       store scaledDownVector loop (f_add (f_mul x scale) offset))
    scaledDownVector.

(** [now] is the value [time(NULL)] returns; the generator's state after
    the call is returned with the vector. *)
Definition randomDataStream `{LibcRand} (now : Z) (df : csvData_t F)
    (numOfData : Z) : option (list F * rand_state) :=
  stream ← malloc_floats numOfData;
  for_lt 0 numOfData
    (λ num '(stream, g),
       let '(r1, g) := rand g in
       xIndex ← int_rem r1 (rows df);
       let '(r2, g) := rand g in
       yIndex ← int_rem r2 (cols df);
       x ← cell df xIndex yIndex;
       stream ← store stream num x;
       Some (stream, g))
    (stream, srand now).

(** [head] and [tail] take the text already on standard output and
    return it with what they print appended. *)
Definition head `{FloatPrint F} (df : csvData_t F) (lines : Z) (out : string)
  : option string :=
  let out := out +:+ "*** ================ TOP " +:+ pretty lines
                 +:+ " ROWS ================ ***" +:+ nl in
  out ← for_lt 0 lines
          (λ row out,
             out ← for_lt 0 (cols df)
                     (λ col out,
                        x ← cell df row col;
                        Some (out +:+ printf_f 10 3 x +:+ tab))
                     out;
             Some (out +:+ " " +:+ nl))
          out;
  Some (out +:+ "*** ============================================= ***" +:+ nl).

Definition tail `{FloatPrint F} (df : csvData_t F) (lines : Z) (out : string)
  : option string :=
  let out := out +:+ "*** ================ BOTTOM " +:+ pretty lines
                 +:+ " ROWS ================ ***" +:+ nl in
  first ← int_sub (rows df) 1;
  bound ← int_sub (rows df) lines;
  bound ← int_sub bound 1;
  out ← for_gt first bound
          (λ row out,
             out ← for_lt 0 (cols df)
                     (λ col out,
                        x ← cell df row col;
                        Some (out +:+ printf_f 10 2 x +:+ " "))
                     out;
             Some (out +:+ " " +:+ nl))
          out;
  Some (out +:+ "*** ========================================== ***" +:+ nl).

End Dml.

(** ** Exact arithmetic: the carrier [Qc] *)

#[export] Instance Qc_arith : FloatArith Qc := {|
  f_of_int z := Q2Qc (inject_Z z);
  f_add := Qcplus;
  f_sub := Qcminus;
  f_mul := Qcmult;
  f_div := Qcdiv;
  f_lt a b := match (a ?= b)%Qc with Lt => true | _ => false end;
  f_gt a b := match (a ?= b)%Qc with Gt => true | _ => false end;
|}.

#[export] Instance Qc_fresh : FreshMemory Qc :=
  λ n, Q2Qc (inject_Z (Z.of_nat n + 77)).

(** ** IEEE-754 binary32 *)

Abbreviation b32 := spec_float.
Definition b32_prec : Z := 24.
Definition b32_emax : Z := 128.

#[export] Instance b32_arith : FloatArith b32 := {|
  f_of_int z := binary_normalize b32_prec b32_emax z 0 false;
  f_add := SFadd b32_prec b32_emax;
  f_sub := SFsub b32_prec b32_emax;
  f_mul := SFmul b32_prec b32_emax;
  f_div := SFdiv b32_prec b32_emax;
  f_lt := SFltb;
  f_gt a b := match SFcompare a b with Some Gt => true | _ => false end;
|}.

#[export] Instance b32_fresh : FreshMemory b32 := λ _, S754_nan.

(** A finite binary32 datum: well-formed mantissa and exponent, neither an
    infinity nor a NaN. *)
Definition b32_finite (x : b32) : bool :=
  match x with
  | S754_zero _ => true
  | S754_finite _ m e => bounded b32_prec b32_emax m e
  | _ => false
  end.

(** The value of a finite binary32 number, counted in units of the least
    positive subnormal [2^-149]. *)
Definition b32_ulps (x : b32) : Z :=
  match x with
  | S754_finite s m e =>
      cond_Zopp s (Z.pos m * 2 ^ (e - emin b32_prec b32_emax))
  | _ => 0
  end.

(** Ascending order of value on finite binary32 numbers. *)
Definition by_value (a b : b32) : Prop := b32_ulps a <= b32_ulps b.



(** [x] is a NaN or has a clear sign bit. *)
Definition b32_not_negative (x : b32) : bool :=
  match x with
  | S754_zero s | S754_infinity s | S754_finite s _ _ => negb s
  | S754_nan => true
  end.

(** ** [printf("%W.Pf")] for the two carriers *)

Definition pad_left (c : ascii) (w : nat) (s : string) : string :=
  string_of_list_ascii (replicate (w - String.length s) c) +:+ s.

(** Nearest integer, ties to even. *)
Definition round_half_even (q : Q) : Z :=
  let d := Z.pos (Qden q) in
  let k := Qnum q `div` d in
  match (2 * (Qnum q `mod` d) ?= d) with
  | Lt => k
  | Gt => k + 1
  | Eq => if Z.even k then k else k + 1
  end.

(** Fixed notation of the magnitude [q >= 0] with [p] decimals, behind the
    sign, right-aligned in [w] columns. *)
Definition format_fixed (w p : nat) (neg : bool) (q : Q) : string :=
  let n := round_half_even (q * inject_Z (10 ^ Z.of_nat p))%Q in
  let ip := n `div` 10 ^ Z.of_nat p in
  let fp := n `mod` 10 ^ Z.of_nat p in
  pad_left " " w
    ((if neg then "-" else "") +:+ pretty ip +:+
     (if p is O then "" else "." +:+ pad_left "0" p (pretty fp))).

#[export] Instance Qc_print : FloatPrint Qc :=
  λ w p q, format_fixed w p (Qnum q <? 0) (Qabs q).

Definition b32_magnitude (m : positive) (e : Z) : Q :=
  match e with
  | Z.neg k => Z.pos m # 2 ^ k
  | _ => inject_Z (Z.pos m * 2 ^ e)
  end.

#[export] Instance b32_print : FloatPrint b32 :=
  λ w p x,
    match x with
    | S754_zero s => format_fixed w p s 0
    | S754_finite s m e => format_fixed w p s (b32_magnitude m e)
    | S754_infinity s => pad_left " " w (if s then "-inf" else "inf")
    | S754_nan => pad_left " " w "nan"
    end.

(** ** A linear congruential [rand] *)

#[export] Instance lcg_rand : LibcRand := {|
  rand_state := Z;
  srand seed := seed `mod` 2 ^ 31;
  rand g := let g' := (1103515245 * g + 12345) `mod` 2 ^ 31 in (g', g');
|}.

(** ** Specification-side definitions *)

Section Spec.
Context {F : Type} `{FloatArith F}.

(** The table invariant of the data model: [rows] and [cols] are the
    dimensions of the rectangular [dataFrame], and both fit an [int]. *)
Definition table_wf (df : csvData_t F) : bool :=
  (rows df =? Z.of_nat (length (dataFrame df)))
  && forallb (λ r, Z.of_nat (length r) =? cols df) (dataFrame df)
  && in_int (rows df) && in_int (cols df) && (0 <=? cols df).

(** The values of column [col], top row first. *)
Definition column (df : csvData_t F) (col : Z) : list F :=
  omap (λ r : list F, r !! Z.to_nat col) (dataFrame df).

(** Sum of a list, accumulated from the left starting at 0. *)
Definition f_sum (xs : list F) : F := foldl f_add (f_of_int 0) xs.

(** Arithmetic average: the sum divided by the number of values. *)
Definition average (xs : list F) : F :=
  f_div (f_sum xs) (f_of_int (Z.of_nat (length xs))).

(** Population variance: the average of the squared deviations from the
    average. *)
Definition population_variance (xs : list F) : F :=
  let m := average xs in
  average ((λ x, f_mul (f_sub x m) (f_sub x m)) <$> xs).

(** Ascending arrangement of a list of values. *)
Definition ascending (xs : list F) : list F :=
  foldr (qsort_insert compareVectors) [] xs.

(** The middle element of a list of odd length, the average of the two
    central elements of a list of even length. *)
Definition middle (xs : list F) : option F :=
  let n := length xs in
  if Nat.odd n then xs !! ((n - 1) / 2)%nat
  else a ← xs !! (n / 2)%nat;
       b ← xs !! (n / 2 - 1)%nat;
       Some (f_div (f_add a b) (f_of_int 2)).

(** The median as the specification words it: the middle of the values
    in ascending order. *)
Definition median_sorted (xs : list F) : option F := middle (ascending xs).

(** What one row of [head] ([p = 3], [sep = tab]) and of [tail] ([p = 2],
    [sep] a blank) looks like, and a run of rows. *)
Definition row_text `{FloatPrint F} (p : nat) (sep : string) (r : list F)
  : string :=
  foldr (λ x t, printf_f 10 p x +:+ sep +:+ t) (" " +:+ nl) r.

Definition rows_text `{FloatPrint F} (p : nat) (sep : string)
    (rs : list (list F)) : string :=
  foldr (λ r t, row_text p sep r +:+ t) "" rs.

Definition head_text `{FloatPrint F} (lines : Z) (rs : list (list F))
  : string :=
  "*** ================ TOP " +:+ pretty lines
    +:+ " ROWS ================ ***" +:+ nl
    +:+ rows_text 3 tab rs
    +:+ "*** ============================================= ***" +:+ nl.

Definition tail_text `{FloatPrint F} (lines : Z) (rs : list (list F))
  : string :=
  "*** ================ BOTTOM " +:+ pretty lines
    +:+ " ROWS ================ ***" +:+ nl
    +:+ rows_text 2 " " rs
    +:+ "*** ========================================== ***" +:+ nl.

(** [x] is the value of a cell of the table. *)
Definition is_cell (df : csvData_t F) (x : F) : Prop :=
  ∃ row col, 0 <= row < rows df ∧ 0 <= col < cols df
             ∧ cell df row col = Some x.

End Spec.

(** ** Tables used in the examples *)

(** A table of integer-valued cells. *)
Definition table_of {F : Type} `{FloatArith F} (l : list (list Z))
  : csvData_t F :=
  mk_csv (Z.of_nat (length l)) (Z.of_nat (length (hd [] l)))
         ((λ r : list Z, f_of_int <$> r) <$> l).

(** * Properties *)

(** [lia] also decides goals with [/], [mod], [quot] and [rem]. *)
Ltac Zify.zify_post_hook ::= Z.to_euclidean_division_equations.

(** Discharges [true = b1 && ... && bn] for integer comparisons [bi]. *)
Ltac guard_holds :=
  symmetry; repeat (apply andb_true_intro; split);
  (apply Z.leb_le || apply Z.ltb_lt || apply Z.eqb_eq); lia.

Lemma int_sub_Some (a b : Z) :
  INT_MIN <= a - b <= INT_MAX → int_sub a b = Some (a - b).
Proof.
  intros Hr. unfold int_sub, in_int.
  replace ((INT_MIN <=? a - b) && (a - b <=? INT_MAX)) with true by guard_holds.
  done.
Qed.



(** ** Loops *)

Lemma for_up_inv {St : Type} (P : Z → St → Prop) (body : Z → St → option St)
    (n : nat) (lo : Z) (s : St) :
  P lo s →
  (∀ i t, lo <= i < lo + Z.of_nat n → P i t →
          ∃ t', body i t = Some t' ∧ P (i + 1) t') →
  ∃ s', for_up n lo body s = Some s' ∧ P (lo + Z.of_nat n) s'.
Proof.
  revert lo s. induction n as [|n IH]; intros lo s Hs Hstep.
  - exists s. rewrite Z.add_0_r. done.
  - destruct (Hstep lo s) as (t & Hb & Ht); [lia | done |].
    destruct (IH (lo + 1) t) as (s' & Hl & Hs'); [done | |].
    + intros i u Hi Hu. apply Hstep; [lia | done].
    + exists s'. simpl. rewrite Hb. simpl. split; [done |].
      replace (lo + Z.of_nat (S n)) with (lo + 1 + Z.of_nat n) by lia. done.
Qed.

Lemma for_up_foldl {St A : Type} (xs : list A) (g : St → A → St)
    (body : Z → St → option St) (lo : Z) (s : St) :
  (∀ (i : nat) x t, xs !! i = Some x → body (lo + Z.of_nat i) t = Some (g t x)) →
  for_up (length xs) lo body s = Some (foldl g s xs).
Proof.
  revert lo s. induction xs as [|x xs IH]; intros lo s Hb; [done |].
  simpl. specialize (Hb 0%nat x s eq_refl) as Hx.
  rewrite Z.add_0_r in Hx. rewrite Hx. simpl. apply IH.
  intros i y t Hi. replace (lo + 1 + Z.of_nat i) with (lo + Z.of_nat (S i)) by lia.
  by apply Hb.
Qed.

Lemma for_down_foldl {St A : Type} (xs : list A) (g : St → A → St)
    (body : Z → St → option St) (hi : Z) (s : St) :
  (∀ (i : nat) x t, xs !! i = Some x → body (hi - Z.of_nat i) t = Some (g t x)) →
  for_down (length xs) hi body s = Some (foldl g s xs).
Proof.
  revert hi s. induction xs as [|x xs IH]; intros hi s Hb; [done |].
  simpl. specialize (Hb 0%nat x s eq_refl) as Hx.
  rewrite Z.sub_0_r in Hx. rewrite Hx. simpl. apply IH.
  intros i y t Hi. replace (hi - 1 - Z.of_nat i) with (hi - Z.of_nat (S i)) by lia.
  by apply Hb.
Qed.

(** ** Table access *)

Section TableFacts.
Context {F : Type} `{FloatArith F} `{FreshMemory F}.
Implicit Types (df : csvData_t F) (xs buf : list F).

Lemma table_wf_dims df :
  table_wf df = true →
  rows df = Z.of_nat (length (dataFrame df))
  ∧ Forall (λ r, Z.of_nat (length r) = cols df) (dataFrame df)
  ∧ 0 <= rows df <= INT_MAX ∧ 0 <= cols df <= INT_MAX.
Proof.
  unfold table_wf, in_int, INT_MIN, INT_MAX. intros Hwf.
  repeat (apply andb_prop in Hwf as [Hwf ?]).
  apply Z.eqb_eq in Hwf.
  split_and!; try lia.
  apply Forall_forall. intros r Hr.
  apply list_elem_of_In in Hr.
  match goal with Hall : forallb _ _ = true |- _ =>
    rewrite forallb_forall in Hall; apply Hall in Hr end.
  lia.
Qed.

Lemma lookup_omap_total {A B : Type} (f : A → option B) (l : list A) (i : nat) :
  Forall (λ a, is_Some (f a)) l → omap f l !! i = l !! i ≫= f.
Proof.
  intros Hall. revert i. induction Hall as [|a l [b Hb] _ IH]; intros i.
  - done.
  - simpl. rewrite Hb. destruct i as [|i]; simpl; [done | apply IH].
Qed.

Lemma length_omap_total {A B : Type} (f : A → option B) (l : list A) :
  Forall (λ a, is_Some (f a)) l → length (omap f l) = length l.
Proof.
  induction 1 as [|a l [b Hb] _ IH]; simpl; [done |].
  rewrite Hb. simpl. f_equal. exact IH.
Qed.

Lemma column_total df col :
  table_wf df = true → 0 <= col < cols df →
  Forall (λ r : list F, is_Some (r !! Z.to_nat col)) (dataFrame df).
Proof.
  intros Hwf Hcol. destruct (table_wf_dims df Hwf) as (_ & Hrect & _).
  eapply Forall_impl; [exact Hrect |]. intros r Hr. simpl in Hr.
  apply lookup_lt_is_Some. lia.
Qed.

Lemma cell_column df row col :
  table_wf df = true → 0 <= col < cols df → 0 <= row →
  cell df row col = column df col !! Z.to_nat row.
Proof.
  intros Hwf Hcol Hrow. unfold cell, column.
  rewrite lookup_omap_total by by apply column_total.
  replace ((0 <=? row) && (0 <=? col)) with true; [done |].
  symmetry. apply andb_true_intro. lia.
Qed.

Lemma length_column df col :
  table_wf df = true → 0 <= col < cols df →
  Z.of_nat (length (column df col)) = rows df.
Proof.
  intros Hwf Hcol. unfold column.
  rewrite length_omap_total by by apply column_total.
  by destruct (table_wf_dims df Hwf) as (-> & _).
Qed.

(** A loop that folds [g] over the cells of one column, row by row. *)
Lemma for_lt_column {St : Type} (g : St → F → St) df col (s : St) :
  table_wf df = true → 0 <= col < cols df →
  for_lt 0 (rows df) (λ row t, x ← cell df row col; Some (g t x)) s
  = Some (foldl g s (column df col)).
Proof.
  intros Hwf Hcol. unfold for_lt.
  rewrite Z.sub_0_r. rewrite <- (length_column df col) by done.
  rewrite Nat2Z.id.
  apply for_up_foldl. intros i x t Hi. simpl.
  rewrite cell_column by (done || lia).
  rewrite Z.add_0_l, Nat2Z.id, Hi. done.
Qed.

End TableFacts.

(** ** mean *)

(** What [mean] computes, for both theorems that need it. *)
Lemma mean_column {F : Type} `{FloatArith F} (df : csvData_t F) (col : Z) :
  table_wf df = true → 0 <= col < cols df →
  mean df col = Some (f_div (f_sum (column df col)) (f_of_int (rows df))).
Proof.
  intros Hwf Hcol. unfold mean. by rewrite for_lt_column.
Qed.

(** C6. On a well-formed table with at least one row and a column index
    within it, [mean] returns the sum of the column's [rows] values
    (accumulated top to bottom from 0) divided by [rows]: the arithmetic
    average.  This holds for every arithmetic, in particular for binary32
    and for exact rationals. *)
Theorem mean_is_average {F : Type} `{FloatArith F} (df : csvData_t F) (col : Z) :
  table_wf df = true → 1 <= rows df → 0 <= col < cols df →
  mean df col = Some (f_div (f_sum (column df col)) (f_of_int (rows df)))
  ∧ mean df col = Some (average (column df col))
  ∧ Z.of_nat (length (column df col)) = rows df.
Proof.
  intros Hwf _ Hcol. rewrite mean_column by done. unfold average.
  rewrite length_column by done. done.
Qed.

Lemma mean_is_average_witness :
  mean (table_of (F := Qc) [[1; 9]; [2; 9]; [3; 9]; [4; 9]]) 0
  = Some (Q2Qc (5 # 2)).
Proof.
  destruct (mean_is_average (table_of (F := Qc) [[1; 9]; [2; 9]; [3; 9]; [4; 9]]) 0)
    as (_ & -> & _); [reflexivity | simpl; lia | simpl; lia |].
  f_equal. apply Qc_is_canon. reflexivity.
Defined.

Example mean_1234_b32 :
  mean (table_of (F := b32) [[1]; [2]; [3]; [4]]) 0
  = Some (f_div (f_of_int 5) (f_of_int 2)).
Proof. vm_compute. reflexivity. Qed.

(** ** standardDeviation *)

(** C2. On a well-formed table with at least one row and a column index
    within it, [standardDeviation] returns the population variance of the
    column: the average of the squared deviations from the column's mean.
    The value returned is that average itself; no square root is taken. *)
Theorem standardDeviation_is_variance {F : Type} `{FloatArith F}
    (df : csvData_t F) (col : Z) :
  table_wf df = true → 1 <= rows df → 0 <= col < cols df →
  standardDeviation df col = Some (population_variance (column df col)).
Proof.
  intros Hwf Hrows Hcol. unfold standardDeviation.
  pose proof (length_column df col Hwf Hcol) as Hlen.
  rewrite mean_column by done. simpl.
  rewrite for_lt_column by done. simpl.
  unfold population_variance, average, f_sum.
  rewrite foldl_fmap, length_fmap, Hlen. done.
Qed.

Lemma standardDeviation_is_variance_witness :
  standardDeviation (table_of (F := Qc) [[7; 0]; [7; 4]]) 1
  = Some (Q2Qc 4).
Proof.
  rewrite (standardDeviation_is_variance (table_of (F := Qc) [[7; 0]; [7; 4]]) 1)
    by (reflexivity || (simpl; lia)).
  f_equal. apply Qc_is_canon. reflexivity.
Defined.

(** The column [0, 4] has mean 2, variance 4 and standard deviation 2:
    [standardDeviation] returns the 4. *)
Example standardDeviation_0_4_Qc :
  standardDeviation (table_of (F := Qc) [[0]; [4]]) 0 = Some (Q2Qc 4)
  ∧ (Q2Qc 2 * Q2Qc 2 = Q2Qc 4)%Qc ∧ Q2Qc 2 ≠ Q2Qc 4.
Proof.
  split_and!; [ vm_compute; f_equal; by apply Qc_is_canon
              | by apply Qc_is_canon | discriminate ].
Qed.

Example standardDeviation_0_4_b32 :
  standardDeviation (table_of (F := b32) [[0]; [4]]) 0 = Some (f_of_int 4).
Proof. vm_compute. reflexivity. Qed.

Example standardDeviation_constant_b32 :
  standardDeviation (table_of (F := b32) [[7]; [7]; [7]; [7]]) 0
  = Some (f_of_int 0).
Proof. vm_compute. reflexivity. Qed.

(** ** Element-wise loops into a fresh buffer *)

Section Buffers.
Context {F : Type} `{FloatArith F} `{FreshMemory F}.
Implicit Types (v buf : list F).

Lemma malloc_floats_length (len : nat) :
  ∃ buf, malloc_floats (Z.of_nat len) = Some buf ∧ length buf = len.
Proof.
  unfold malloc_floats. replace (0 <=? Z.of_nat len) with true
    by (symmetry; apply Z.leb_le; lia).
  eexists; split; [done |]. by rewrite length_fmap, length_seq, Nat2Z.id.
Qed.

Lemma store_Some buf (i : Z) (x : F) :
  0 <= i < Z.of_nat (length buf) →
  store buf i x = Some (<[Z.to_nat i := x]> buf).
Proof.
  intros Hi. unfold store.
  replace ((0 <=? i) && (i <? Z.of_nat (length buf))) with true; [done |].
  symmetry. apply andb_true_intro. lia.
Qed.

(** [for (i = 0; i < len; i++) buf[i] = f(v[i])] fills the buffer with
    the image of [v]. *)
Lemma for_lt_store_map (f : F → F) v buf :
  length buf = length v →
  for_lt 0 (Z.of_nat (length v))
    (λ i b, x ← load v i; store b i (f x)) buf
  = Some (f <$> v).
Proof.
  intros Hlen. unfold for_lt. rewrite Z.sub_0_r, Nat2Z.id.
  destruct (for_up_inv
    (λ i b, length b = length v
            ∧ ∀ j : nat, Z.of_nat j < i → b !! j = f <$> v !! j)
    (λ i b, x ← load v i; store b i (f x)) (length v) 0 buf)
    as (out & -> & Hout & Hfill).
  - split; [done | lia].
  - intros i b Hi [Hb Hfill].
    destruct (lookup_lt_is_Some_2 v (Z.to_nat i)) as [x Hx]; [lia |].
    exists (<[Z.to_nat i := f x]> b). unfold load.
    replace (0 <=? i) with true by (symmetry; apply Z.leb_le; lia).
    rewrite Hx. simpl. rewrite store_Some by lia.
    split; [done |]. split; [by rewrite length_insert |].
    intros j Hj. destruct (decide (j = Z.to_nat i)) as [-> | Hne].
    + rewrite list_lookup_insert_eq by lia. by rewrite Hx.
    + rewrite list_lookup_insert_ne by done. apply Hfill. lia.
  - f_equal. apply list_eq. intros j. rewrite list_lookup_fmap.
    destruct (decide (j < length v)%nat).
    + apply Hfill. lia.
    + rewrite !lookup_ge_None_2 by lia. done.
Qed.

Lemma scaleToUnity_map v (lowerBound upperBound : F) :
  scaleToUnity v (Z.of_nat (length v)) lowerBound upperBound
  = Some ((λ x, f_div x (f_sub upperBound lowerBound)) <$> v).
Proof.
  unfold scaleToUnity.
  destruct (malloc_floats_length (length v)) as (buf & -> & Hbuf). simpl.
  by apply for_lt_store_map.
Qed.

Lemma scaleVector_map v (lowerBound upperBound newLowBound newUpBound : F) :
  scaleVector v (Z.of_nat (length v)) lowerBound upperBound
              newLowBound newUpBound
  = Some ((λ x,
       f_add (f_mul x (f_div (f_sub newUpBound newLowBound)
                             (f_sub upperBound lowerBound)))
             (f_sub newLowBound
                    (f_mul (f_div (f_sub newUpBound newLowBound)
                                  (f_sub upperBound lowerBound))
                           lowerBound))) <$> v).
Proof.
  unfold scaleVector.
  destruct (malloc_floats_length (length v)) as (buf & -> & Hbuf). simpl.
  by apply for_lt_store_map.
Qed.

End Buffers.

(** ** scaleToUnity *)

(** C3. For a vector of length [len] and bounds that differ,
    [scaleToUnity] returns a vector of length [len] whose [i]-th element is
    [vector[i] / (upperBound - lowerBound)]: the element itself is divided,
    [lowerBound] is not subtracted from it first. *)
Theorem scaleToUnity_divides {F : Type} `{FloatArith F} `{FreshMemory F}
    (vector : list F) (len : Z) (lowerBound upperBound : F) :
  Z.of_nat (length vector) = len → upperBound ≠ lowerBound →
  ∃ unity,
    scaleToUnity vector len lowerBound upperBound = Some unity
    ∧ Z.of_nat (length unity) = len
    ∧ ∀ (i : nat) x, vector !! i = Some x →
        unity !! i = Some (f_div x (f_sub upperBound lowerBound)).
Proof.
  intros <- _. rewrite scaleToUnity_map. eexists. split; [done |].
  split; [by rewrite length_fmap |].
  intros i x Hx. by rewrite list_lookup_fmap, Hx.
Qed.

Lemma scaleToUnity_divides_witness :
  ∃ unity,
    scaleToUnity (F := Qc) [Q2Qc 1; Q2Qc 2; Q2Qc 3; Q2Qc 4; Q2Qc 5] 5
                 (Q2Qc 1) (Q2Qc 5) = Some unity
    ∧ Z.of_nat (length unity) = 5
    ∧ ∀ (i : nat) x, [Q2Qc 1; Q2Qc 2; Q2Qc 3; Q2Qc 4; Q2Qc 5] !! i = Some x →
        unity !! i = Some (f_div x (f_sub (Q2Qc 5) (Q2Qc 1))).
Proof.
  apply (scaleToUnity_divides (F := Qc)); [reflexivity | discriminate].
Defined.

(** The example of the source's documentation: [1..5] with bounds 1 and 5
    becomes [1/4 .. 5/4], not [0 .. 1]. *)
Example scaleToUnity_1_5_Qc :
  scaleToUnity (F := Qc) (f_of_int <$> [1; 2; 3; 4; 5]) 5 (f_of_int 1) (f_of_int 5)
  = Some [Q2Qc (1 # 4); Q2Qc (1 # 2); Q2Qc (3 # 4); Q2Qc 1; Q2Qc (5 # 4)].
Proof.
  vm_compute. apply (f_equal Some).
  repeat (apply (f_equal2 cons); [by apply Qc_is_canon |]). done.
Qed.

(** In exact arithmetic the quotient differs from the min-max normalised
    value as soon as the lower bound is not 0. *)
Lemma scaleToUnity_not_minmax (x lowerBound upperBound : Qc) :
  upperBound ≠ lowerBound → lowerBound ≠ 0%Qc →
  f_div x (f_sub upperBound lowerBound)
  ≠ f_div (f_sub x lowerBound) (f_sub upperBound lowerBound).
Proof.
  simpl. intros Hne Hlo Heq.
  assert (Hd : (upperBound - lowerBound)%Qc ≠ 0%Qc).
  { intros Hd. apply Hne. rewrite <- (Qcplus_0_l lowerBound), <- Hd. ring. }
  apply Hlo.
  assert (Hx : (x = x - lowerBound)%Qc).
  { transitivity ((x / (upperBound - lowerBound)) * (upperBound - lowerBound))%Qc;
      [field; done |]. rewrite Heq. field; done. }
  transitivity (x - (x - lowerBound))%Qc; [ring |]. rewrite <- Hx. ring.
Qed.

(** ** scaleVector *)

(** C4. For a vector of length [len] and source bounds that differ,
    [scaleVector] returns a vector of length [len] whose [i]-th element is
    [vector[i] * scale + offset] with
    [scale = (newUpBound - newLowBound) / (upperBound - lowerBound)] and
    [offset = newLowBound - scale * lowerBound]. *)
Theorem scaleVector_affine {F : Type} `{FloatArith F} `{FreshMemory F}
    (vector : list F) (len : Z)
    (lowerBound upperBound newLowBound newUpBound : F) :
  Z.of_nat (length vector) = len → upperBound ≠ lowerBound →
  let scale := f_div (f_sub newUpBound newLowBound)
                     (f_sub upperBound lowerBound) in
  let offset := f_sub newLowBound (f_mul scale lowerBound) in
  ∃ scaled,
    scaleVector vector len lowerBound upperBound newLowBound newUpBound
      = Some scaled
    ∧ Z.of_nat (length scaled) = len
    ∧ ∀ (i : nat) x, vector !! i = Some x →
        scaled !! i = Some (f_add (f_mul x scale) offset).
Proof.
  intros <- _ scale offset. rewrite scaleVector_map. eexists. split; [done |].
  split; [by rewrite length_fmap |].
  intros i x Hx. by rewrite list_lookup_fmap, Hx.
Qed.

Lemma scaleVector_affine_witness :
  ∃ scaled,
    scaleVector (F := Qc) [Q2Qc 1; Q2Qc 3; Q2Qc 5] 3
                (Q2Qc 1) (Q2Qc 5) (Q2Qc 0) (Q2Qc 1) = Some scaled
    ∧ Z.of_nat (length scaled) = 3
    ∧ ∀ (i : nat) x, [Q2Qc 1; Q2Qc 3; Q2Qc 5] !! i = Some x →
        scaled !! i
        = Some (f_add (f_mul x (f_div (f_sub (Q2Qc 1) (Q2Qc 0))
                                      (f_sub (Q2Qc 5) (Q2Qc 1))))
                      (f_sub (Q2Qc 0)
                             (f_mul (f_div (f_sub (Q2Qc 1) (Q2Qc 0))
                                           (f_sub (Q2Qc 5) (Q2Qc 1)))
                                    (Q2Qc 1)))).
Proof.
  apply (scaleVector_affine (F := Qc)); [reflexivity | discriminate].
Defined.

(** The example of the source's documentation, in binary32. *)
Example scaleVector_1_5_b32 :
  scaleVector (F := b32) (f_of_int <$> [1; 2; 3; 4; 5]) 5
              (f_of_int 1) (f_of_int 5) (f_of_int 0) (f_of_int 1)
  = Some [S754_zero false;
          f_div (f_of_int 1) (f_of_int 4); f_div (f_of_int 1) (f_of_int 2);
          f_div (f_of_int 3) (f_of_int 4); f_of_int 1].
Proof. vm_compute. reflexivity. Qed.

(** What exact arithmetic would give: rescaling a vector from [[lo, hi]]
    to [[newLo, newUp]] and then from [[newLo, newUp]] back to [[lo, hi]]
    gives the vector back, whenever neither range is degenerate.  The
    program computes in binary32, where this fails; see
    [scaleVector_round_trip_b32] below. *)
Theorem scaleVector_round_trip (vector : list Qc) (lo hi newLo newUp : Qc) :
  lo ≠ hi → newLo ≠ newUp →
  ∃ scaled,
    scaleVector vector (Z.of_nat (length vector)) lo hi newLo newUp
      = Some scaled
    ∧ scaleVector scaled (Z.of_nat (length scaled)) newLo newUp lo hi
      = Some vector.
Proof.
  intros Hsrc Hdst. rewrite scaleVector_map. eexists. split; [done |].
  rewrite scaleVector_map. f_equal.
  rewrite <- list_fmap_compose. rewrite <- (list_fmap_id vector) at 2.
  apply list_fmap_ext. intros _ x _. simpl.
  assert ((hi - lo)%Qc ≠ 0%Qc).
  { intros Hd. apply Hsrc. rewrite <- (Qcplus_0_l lo), <- Hd. ring. }
  assert ((newUp - newLo)%Qc ≠ 0%Qc).
  { intros Hd. apply Hdst. rewrite <- (Qcplus_0_l newLo), <- Hd. ring. }
  field. done.
Qed.

Lemma scaleVector_round_trip_witness :
  ∃ scaled,
    scaleVector [Q2Qc 1; Q2Qc (7 # 3); Q2Qc (-2)] 3
                (Q2Qc 1) (Q2Qc 5) (Q2Qc (-1)) (Q2Qc 10) = Some scaled
    ∧ scaleVector scaled (Z.of_nat (length scaled))
                  (Q2Qc (-1)) (Q2Qc 10) (Q2Qc 1) (Q2Qc 5)
      = Some [Q2Qc 1; Q2Qc (7 # 3); Q2Qc (-2)].
Proof.
  apply (scaleVector_round_trip [Q2Qc 1; Q2Qc (7 # 3); Q2Qc (-2)]);
    discriminate.
Defined.

(** In binary32 the same round trip is subject to rounding: one tenth,
    rescaled from [[0, 1]] to [[0, 3]] and back, returns one unit in the
    last place above where it started. *)
Example scaleVector_round_trip_b32_rounds :
  f_div (f_of_int 1) (f_of_int 10) = S754_finite false 13421773 (-27)
  ∧ (scaled ← scaleVector (F := b32) [f_div (f_of_int 1) (f_of_int 10)] 1
                (f_of_int 0) (f_of_int 1) (f_of_int 0) (f_of_int 3);
     scaleVector scaled 1 (f_of_int 0) (f_of_int 3) (f_of_int 0) (f_of_int 1))
    = Some [S754_finite false 13421774 (-27)].
Proof. split; vm_compute; reflexivity. Qed.

(** ** randomDataStream *)

Section Sampling.
Context {F : Type} `{FloatArith F} `{FreshMemory F}.

Lemma cell_in_range (df : csvData_t F) (row col : Z) :
  table_wf df = true → 0 <= row < rows df → 0 <= col < cols df →
  ∃ x, cell df row col = Some x.
Proof.
  intros Hwf Hrow Hcol. rewrite cell_column by (done || lia).
  apply lookup_lt_is_Some_2.
  pose proof (length_column df col Hwf Hcol). lia.
Qed.

Lemma int_rem_draw (r n : Z) :
  0 <= r <= RAND_MAX → 1 <= n →
  ∃ k, int_rem r n = Some k ∧ 0 <= k < n.
Proof.
  intros Hr Hn. exists (Z.rem r n). unfold int_rem, INT_MIN.
  replace (n =? 0) with false by (symmetry; apply Z.eqb_neq; lia).
  replace (n =? -1) with false by (symmetry; apply Z.eqb_neq; lia).
  rewrite andb_false_r. split; [done |].
  apply Z.rem_bound_pos; lia.
Qed.

End Sampling.

(** C7. Whatever the generator draws (within [0, RAND_MAX]) and whatever
    the clock reads, on a well-formed table with at least one row and one
    column [randomDataStream] returns a vector of exactly [n] elements, each
    the value of a cell of the table. *)
Theorem randomDataStream_samples_cells {F : Type} `{FloatArith F}
    `{FreshMemory F} `{LibcRand} (now : Z) (df : csvData_t F) (n : Z) :
  rand_in_range →
  table_wf df = true → 1 <= rows df → 1 <= cols df → 0 <= n →
  ∃ stream g,
    randomDataStream now df n = Some (stream, g)
    ∧ Z.of_nat (length stream) = n
    ∧ Forall (is_cell df) stream.
Proof.
  intros Hrand Hwf Hrows Hcols Hn. unfold randomDataStream.
  destruct (malloc_floats_length (Z.to_nat n)) as (buf & Hbuf & Hlen).
  rewrite Z2Nat.id in Hbuf by done. rewrite Hbuf. simpl. unfold for_lt.
  pose (P := λ (i : Z) (st : list F * rand_state),
       length st.1 = Z.to_nat n
       ∧ ∀ (j : nat) x, Z.of_nat j < i → st.1 !! j = Some x → is_cell df x).
  match goal with |- context [for_up ?k ?lo ?body ?s] =>
    destruct (for_up_inv P body k lo s) as ([stream g] & Hrun & Hl & Hcells)
  end.
  - split; [done |]. intros j x Hj. lia.
  - intros i [st g] Hi [Hl Hcells]. simpl in Hl, Hcells.
    pose proof (Hrand g) as Hr1. destruct (rand g) as [r1 g1]. simpl in Hr1.
    destruct (int_rem_draw r1 (rows df) Hr1 Hrows) as (xi & -> & Hxi). simpl.
    pose proof (Hrand g1) as Hr2. destruct (rand g1) as [r2 g2]. simpl in Hr2.
    destruct (int_rem_draw r2 (cols df) Hr2 Hcols) as (yi & -> & Hyi). simpl.
    destruct (cell_in_range df xi yi Hwf Hxi Hyi) as [x Hx]. rewrite Hx. simpl.
    rewrite store_Some by lia. simpl. eexists. split; [done |].
    unfold P. simpl. split; [by rewrite length_insert |].
    intros j y Hj. destruct (decide (j = Z.to_nat i)) as [-> | Hne].
    + rewrite list_lookup_insert_eq by lia. intros [= <-].
      by exists xi, yi.
    + rewrite list_lookup_insert_ne by done. apply Hcells. lia.
  - exists stream, g. split; [done |]. simpl in Hl, Hcells.
    split; [lia |]. apply Forall_lookup. intros j x Hx.
    apply (Hcells j x); [| done].
    apply lookup_lt_Some in Hx. lia.
Qed.

Lemma randomDataStream_samples_cells_witness :
  ∃ stream g,
    randomDataStream (F := b32) 1701302400
      (table_of [[5; 6]; [1; 2]; [3; 4]]) 4 = Some (stream, g)
    ∧ Z.of_nat (length stream) = 4
    ∧ Forall (is_cell (table_of [[5; 6]; [1; 2]; [3; 4]])) stream.
Proof.
  apply (randomDataStream_samples_cells (F := b32));
    [| reflexivity | simpl; lia | simpl; lia | lia].
  intros g. simpl. unfold RAND_MAX.
  pose proof (Z.mod_pos_bound (1103515245 * g + 12345) (2 ^ 31)). lia.
Defined.

(** ** head and tail *)

Lemma append_assoc (s1 s2 s3 : string) : (s1 +:+ s2) +:+ s3 = s1 +:+ s2 +:+ s3.
Proof.
  induction s1 as [|c s1 IH]; [done |].
  change (String c ((s1 +:+ s2) +:+ s3) = String c (s1 +:+ s2 +:+ s3)).
  by rewrite IH.
Qed.

Lemma append_empty_r (s : string) : s +:+ "" = s.
Proof.
  induction s as [|c s IH]; [done |].
  change (String c (s +:+ "") = String c s). by rewrite IH.
Qed.

Section Printing.
Context {F : Type} `{FloatArith F} `{FloatPrint F}.
Implicit Types (df : csvData_t F) (r : list F) (rs : list (list F)).

Lemma cell_of_row df (row col : nat) r :
  dataFrame df !! row = Some r →
  cell df (Z.of_nat row) (Z.of_nat col) = r !! col.
Proof.
  intros Hr. unfold cell.
  replace ((0 <=? Z.of_nat row) && (0 <=? Z.of_nat col)) with true
    by guard_holds.
  rewrite !Nat2Z.id, Hr. done.
Qed.

Lemma foldl_row_text (p : nat) (sep : string) r (out : string) :
  foldl (λ o x, o +:+ printf_f 10 p x +:+ sep) out r +:+ " " +:+ nl
  = out +:+ row_text p sep r.
Proof.
  revert out. induction r as [|x r IH]; intros out; simpl; [done |].
  rewrite IH. unfold row_text. by rewrite !append_assoc.
Qed.

Lemma foldl_rows_text (p : nat) (sep : string) rs (out : string) :
  foldl (λ o r, o +:+ row_text p sep r) out rs = out +:+ rows_text p sep rs.
Proof.
  revert out. induction rs as [|r rs IH]; intros out; simpl.
  - by rewrite append_empty_r.
  - rewrite IH. by rewrite append_assoc.
Qed.

(** The inner loop prints the cells of row [row], left to right. *)
Lemma print_row df (row : nat) r (p : nat) (sep out : string) :
  table_wf df = true → dataFrame df !! row = Some r →
  (o ← for_lt 0 (cols df)
         (λ col o, x ← cell df (Z.of_nat row) col;
                   Some (o +:+ printf_f 10 p x +:+ sep))
         out;
   Some (o +:+ " " +:+ nl))
  = Some (out +:+ row_text p sep r).
Proof.
  intros Hwf Hr. destruct (table_wf_dims df Hwf) as (_ & Hrect & _).
  rewrite Forall_lookup in Hrect. specialize (Hrect row r Hr).
  unfold for_lt. rewrite Z.sub_0_r, <- Hrect, Nat2Z.id.
  rewrite (for_up_foldl r (λ o x, o +:+ printf_f 10 p x +:+ sep)).
  - simpl. by rewrite foldl_row_text.
  - intros i x t Hi. rewrite Z.add_0_l, (cell_of_row df row i r Hr), Hi. done.
Qed.

(** The rows [tail] walks through: the last row first. *)
Lemma lookup_take_reverse {A : Type} (l : list A) (k i : nat) :
  (i < k)%nat → (k ≤ length l)%nat →
  take k (reverse l) !! i = l !! (length l - 1 - i)%nat.
Proof.
  intros Hi Hk. rewrite lookup_take_lt by done.
  rewrite reverse_lookup by lia. f_equal. lia.
Qed.

End Printing.

(** C8. On a well-formed table, [head] prints its banner, the rows
    [0 .. lines-1] in that order and its closing line; [tail] prints its
    banner, the rows [rows-1] down to [rows-lines] in that order and its
    closing line.  With [lines = rows] that is every row of the table, in
    the original order for [head] and in reverse order for [tail].  The
    statement covers every [lines] for which C defines the behaviour: beyond
    [rows] both loops read outside the table, and below [rows - INT_MAX] the
    bound of [tail]'s loop overflows. *)
Theorem head_tail_rows {F : Type} `{FloatArith F} `{FloatPrint F}
    (df : csvData_t F) (lines : Z) (out : string) :
  table_wf df = true → rows df - INT_MAX <= lines <= rows df →
  head df lines out
    = Some (out +:+ head_text lines (take (Z.to_nat lines) (dataFrame df)))
  ∧ tail df lines out
    = Some (out +:+ tail_text lines
                      (take (Z.to_nat lines) (reverse (dataFrame df))))
  ∧ head df (rows df) out
    = Some (out +:+ head_text (rows df) (dataFrame df))
  ∧ tail df (rows df) out
    = Some (out +:+ tail_text (rows df) (reverse (dataFrame df)))
  ∧ ∀ i : nat, Z.of_nat i < lines →
      take (Z.to_nat lines) (dataFrame df) !! i = dataFrame df !! i
      ∧ take (Z.to_nat lines) (reverse (dataFrame df)) !! i
        = dataFrame df !! Z.to_nat (rows df - 1 - Z.of_nat i).
Proof.
  intros Hwf Hlines.
  destruct (table_wf_dims df Hwf) as (Hrows & Hrect & Hr & Hc).
  assert (INT_MIN = - 2 ^ 31 ∧ INT_MAX = 2 ^ 31 - 1) as [Hmin Hmax] by done.
  assert (Hhead : ∀ k, k <= rows df →
    head df k out = Some (out +:+ head_text k (take (Z.to_nat k) (dataFrame df)))).
  { intros k Hk. unfold head, for_lt. rewrite Z.sub_0_r.
    replace (Z.to_nat k) with (length (take (Z.to_nat k) (dataFrame df))) at 1
      by (rewrite length_take; lia).
    rewrite (for_up_foldl _ (λ o r, o +:+ row_text 3 tab r)).
    - simpl. rewrite foldl_rows_text. unfold head_text.
      by rewrite !append_assoc.
    - intros i r t Hi. apply lookup_take_Some in Hi as [Hi _].
      rewrite Z.add_0_l. by apply print_row. }
  assert (Htail : ∀ k, rows df - INT_MAX <= k <= rows df →
    tail df k out
    = Some (out +:+ tail_text k (take (Z.to_nat k) (reverse (dataFrame df))))).
  { intros k Hk. unfold tail, for_gt.
    rewrite (int_sub_Some (rows df) 1) by lia. simpl.
    rewrite (int_sub_Some (rows df) k) by lia. simpl.
    rewrite (int_sub_Some (rows df - k) 1) by lia. simpl.
    replace (Z.to_nat (rows df - 1 - (rows df - k - 1)))
      with (length (take (Z.to_nat k) (reverse (dataFrame df))))
      by (rewrite length_take, length_reverse; lia).
    rewrite (for_down_foldl _ (λ o r, o +:+ row_text 2 " " r)).
    - simpl. rewrite foldl_rows_text. unfold tail_text.
      by rewrite !append_assoc.
    - intros i r t Hi.
      assert (Hik : (i < Z.to_nat k)%nat)
        by (by apply lookup_take_Some in Hi as [_ ?]).
      rewrite lookup_take_reverse in Hi by lia.
      replace (rows df - 1 - Z.of_nat i)
        with (Z.of_nat (length (dataFrame df) - 1 - i)) by lia.
      by apply print_row. }
  split; [apply Hhead; lia |]. split; [by apply Htail |].
  split.
  { rewrite (Hhead (rows df)) by lia. rewrite Hrows, Nat2Z.id.
    by rewrite firstn_all. }
  split.
  { rewrite (Htail (rows df)) by lia. rewrite Hrows, Nat2Z.id.
    rewrite <- (length_reverse (dataFrame df)). by rewrite firstn_all. }
  intros i Hi. split.
  - apply lookup_take_lt. lia.
  - rewrite lookup_take_reverse by lia. f_equal. lia.
Qed.

Lemma head_tail_rows_witness :
  head (table_of (F := b32) [[5; 6]; [1; 2]; [3; 4]]) 2 ""
  = Some ("*** ================ TOP 2 ROWS ================ ***" +:+ nl
          +:+ "     5.000" +:+ tab +:+ "     6.000" +:+ tab +:+ " " +:+ nl
          +:+ "     1.000" +:+ tab +:+ "     2.000" +:+ tab +:+ " " +:+ nl
          +:+ "*** ============================================= ***" +:+ nl).
Proof.
  destruct (head_tail_rows (table_of (F := b32) [[5; 6]; [1; 2]; [3; 4]]) 2 "")
    as (-> & _); [reflexivity | vm_compute; split; discriminate |].
  vm_compute. reflexivity.
Defined.

Example tail_all_rows_Qc :
  tail (table_of (F := Qc) [[5; 6]; [1; 2]; [3; 4]]) 3 ""
  = Some ("*** ================ BOTTOM 3 ROWS ================ ***" +:+ nl
          +:+ "      3.00 " +:+ "      4.00 " +:+ " " +:+ nl
          +:+ "      1.00 " +:+ "      2.00 " +:+ " " +:+ nl
          +:+ "      5.00 " +:+ "      6.00 " +:+ " " +:+ nl
          +:+ "*** ========================================== ***" +:+ nl).
Proof. vm_compute. reflexivity. Qed.

(** Asking for more rows than the table has makes both loops read outside
    the table. *)
Example head_tail_beyond_table :
  head (table_of (F := b32) [[5; 6]; [1; 2]; [3; 4]]) 4 "" = None
  ∧ tail (table_of (F := b32) [[5; 6]; [1; 2]; [3; 4]]) 4 "" = None.
Proof. split; vm_compute; reflexivity. Qed.

(** ** median *)

Section Median.
Context {F : Type} `{FloatArith F} `{FreshMemory F}.



End Median.

(** [ascending] rearranges its argument; it neither drops nor invents
    values. *)
Lemma ascending_permutation {F : Type} `{FloatArith F} (xs : list F) :
  Permutation (ascending xs) xs.
Proof.
  assert (Hins : ∀ x l, Permutation (qsort_insert compareVectors x l) (x :: l)).
  { intros x l. induction l as [|y l IH]; simpl; [done |].
    destruct (compareVectors x y <=? 0); [done |].
    rewrite IH. apply perm_swap. }
  induction xs as [|x xs IH]; simpl; [done |].
  unfold ascending in IH. rewrite Hins. by constructor.
Qed.

(** C1, the code at the specification's own examples, in binary32.  The
    column [5, 1, 3] has the median 3, the middle of [1, 3, 5]; [median]
    returns 1, the middle cell of the table.  The column [5, 1, 3, 7] has
    the median 4; [median] returns 2, the average of the cells 3 and 1. *)
Theorem median_middle_of_unsorted :
  median (table_of (F := b32) [[5]; [1]; [3]]) 0 = Some (f_of_int 1)
  ∧ median_sorted (column (table_of (F := b32) [[5]; [1]; [3]]) 0)
    = Some (f_of_int 3)
  ∧ median (table_of (F := b32) [[5]; [1]; [3]; [7]]) 0 = Some (f_of_int 2)
  ∧ median_sorted (column (table_of (F := b32) [[5]; [1]; [3]; [7]]) 0)
    = Some (f_of_int 4)
  ∧ ascending (column (table_of (F := b32) [[5]; [1]; [3]]) 0)
    = f_of_int <$> [1; 3; 5]
  ∧ f_lt (f_of_int (F := b32) 1) (f_of_int 3) = true.
Proof. split_and!; vm_compute; reflexivity. Qed.

(** When the column already stands in ascending order the two agree. *)
Example median_sorted_column_b32 :
  median (table_of (F := b32) [[1]; [3]; [5]]) 0
  = median_sorted (column (table_of (F := b32) [[1]; [3]; [5]]) 0).
Proof. vm_compute. reflexivity. Qed.

(** ** compareVectors on binary32 *)

Lemma digits2_pos_bounds (m : positive) :
  2 ^ (Z.pos (digits2_pos m) - 1) <= Z.pos m < 2 ^ Z.pos (digits2_pos m).
Proof.
  induction m as [m IH | m IH |]; simpl digits2_pos; [| | simpl; lia].
  - rewrite Pos2Z.inj_succ, Z.pow_succ_r by lia.
    replace (Z.succ (Z.pos (digits2_pos m)) - 1)
      with (Z.succ (Z.pos (digits2_pos m) - 1)) by lia.
    rewrite Z.pow_succ_r by lia. lia.
  - rewrite Pos2Z.inj_succ, Z.pow_succ_r by lia.
    replace (Z.succ (Z.pos (digits2_pos m)) - 1)
      with (Z.succ (Z.pos (digits2_pos m) - 1)) by lia.
    rewrite Z.pow_succ_r by lia. lia.
Qed.

(** A well-formed binary32 mantissa has at most 24 bits, exactly 24 unless
    the exponent is the least one. *)
Lemma bounded_b32 (m : positive) (e : Z) :
  bounded b32_prec b32_emax m e = true →
  -149 <= e <= 104
  ∧ Z.pos m < 2 ^ 24
  ∧ (e = -149 ∨ 2 ^ 23 <= Z.pos m).
Proof.
  unfold bounded, canonical_mantissa, fexp, emin, b32_prec, b32_emax.
  intros Hb. apply andb_prop in Hb as [Hc He].
  apply Z.eqb_eq in Hc. apply Z.leb_le in He.
  pose proof (digits2_pos_bounds m) as [Hlo Hhi].
  assert (Hd : Z.pos (digits2_pos m) <= 24) by lia.
  split; [lia |]. split.
  - eapply Z.lt_le_trans; [exact Hhi |]. apply Z.pow_le_mono_r; lia.
  - destruct (decide (e = -149)) as [| Hne]; [by left | right].
    replace (Z.pos (digits2_pos m)) with 24 in Hlo by lia. exact Hlo.
Qed.

Lemma ulps_exponent_lt (m1 m2 : positive) (e1 e2 : Z) :
  bounded b32_prec b32_emax m1 e1 = true →
  bounded b32_prec b32_emax m2 e2 = true →
  e1 < e2 →
  Z.pos m1 * 2 ^ (e1 + 149) < Z.pos m2 * 2 ^ (e2 + 149).
Proof.
  intros H1 H2 Hlt.
  destruct (bounded_b32 m1 e1 H1) as (He1 & Hm1 & _).
  destruct (bounded_b32 m2 e2 H2) as (He2 & _ & [-> | Hm2]); [lia |].
  replace (e2 + 149) with ((e1 + 149) + (e2 - e1)) by lia.
  rewrite (Z.pow_add_r 2 (e1 + 149) (e2 - e1)) by lia.
  assert (0 < 2 ^ (e1 + 149)) by (apply Z.pow_pos_nonneg; lia).
  assert (2 ^ 1 <= 2 ^ (e2 - e1)) by (apply Z.pow_le_mono_r; lia).
  change (2 ^ 24) with 16777216 in Hm1. change (2 ^ 23) with 8388608 in Hm2.
  change (2 ^ 1) with 2 in *.
  set (P := 2 ^ (e1 + 149)) in *. set (Q := 2 ^ (e2 - e1)) in *.
  assert (Z.pos m1 * P < 16777216 * P) by (apply Z.mul_lt_mono_pos_r; lia).
  assert (P * 2 <= P * Q) by (apply Z.mul_le_mono_nonneg_l; lia).
  assert (8388608 * (P * 2) <= Z.pos m2 * (P * Q))
    by (apply Z.mul_le_mono_nonneg; lia).
  lia.
Qed.

(** Comparing well-formed magnitudes exponent first, mantissa second, is
    comparing their values. *)
Lemma magnitude_compare (m1 m2 : positive) (e1 e2 : Z) :
  bounded b32_prec b32_emax m1 e1 = true →
  bounded b32_prec b32_emax m2 e2 = true →
  match e1 ?= e2 with
  | Lt => Lt
  | Gt => Gt
  | Eq => Pos.compare_cont Eq m1 m2
  end
  = (Z.pos m1 * 2 ^ (e1 + 149) ?= Z.pos m2 * 2 ^ (e2 + 149)).
Proof.
  intros H1 H2. destruct (Z.compare_spec e1 e2) as [-> | Hlt | Hgt].
  - destruct (bounded_b32 m2 e2 H2) as (He2 & _).
    rewrite <- Zmult_compare_compat_r; [done |].
    apply Z.lt_gt, Z.pow_pos_nonneg; lia.
  - symmetry. apply Z.compare_lt_iff. by apply ulps_exponent_lt.
  - symmetry. apply Z.compare_gt_iff. by apply ulps_exponent_lt.
Qed.

Lemma SFcompare_ulps (a b : b32) :
  b32_finite a = true → b32_finite b = true →
  SFcompare a b = Some (b32_ulps a ?= b32_ulps b).
Proof.
  destruct a as [sa | sa | | sa ma ea], b as [sb | sb | | sb mb eb];
    try discriminate; simpl b32_finite; intros Ha Hb.
  - done.
  - destruct (bounded_b32 mb eb Hb) as (He & _).
    assert (0 < Z.pos mb * 2 ^ (eb + 149))
      by (apply Z.mul_pos_pos; [lia | apply Z.pow_pos_nonneg; lia]).
    unfold b32_ulps, emin, b32_prec, b32_emax. simpl SFcompare.
    replace (eb - (3 - 128 - 24)) with (eb + 149) by lia.
    f_equal. symmetry. destruct sb; simpl cond_Zopp.
    + apply Z.compare_gt_iff. lia.
    + apply Z.compare_lt_iff. lia.
  - destruct (bounded_b32 ma ea Ha) as (He & _).
    assert (0 < Z.pos ma * 2 ^ (ea + 149))
      by (apply Z.mul_pos_pos; [lia | apply Z.pow_pos_nonneg; lia]).
    unfold b32_ulps, emin, b32_prec, b32_emax. simpl SFcompare.
    replace (ea - (3 - 128 - 24)) with (ea + 149) by lia.
    f_equal. symmetry. destruct sa; simpl cond_Zopp.
    + apply Z.compare_lt_iff. lia.
    + apply Z.compare_gt_iff. lia.
  - destruct (bounded_b32 ma ea Ha) as (Hea & _).
    destruct (bounded_b32 mb eb Hb) as (Heb & _).
    assert (0 < Z.pos ma * 2 ^ (ea + 149))
      by (apply Z.mul_pos_pos; [lia | apply Z.pow_pos_nonneg; lia]).
    assert (0 < Z.pos mb * 2 ^ (eb + 149))
      by (apply Z.mul_pos_pos; [lia | apply Z.pow_pos_nonneg; lia]).
    pose proof (magnitude_compare ma mb ea eb Ha Hb) as Hmag.
    unfold b32_ulps, emin, b32_prec, b32_emax. simpl SFcompare.
    replace (ea - (3 - 128 - 24)) with (ea + 149) by lia.
    replace (eb - (3 - 128 - 24)) with (eb + 149) by lia.
    f_equal. destruct sa, sb; simpl cond_Zopp.
    + rewrite Z.compare_opp.
      rewrite (Z.compare_antisym (Z.pos ma * 2 ^ (ea + 149))), <- Hmag.
      by destruct (ea ?= eb).
    + symmetry. apply Z.compare_lt_iff. lia.
    + symmetry. apply Z.compare_gt_iff. lia.
    + exact Hmag.
Qed.

(** C9. For finite binary32 values, [compareVectors] returns exactly -1
    when [a] is below [b], exactly 0 when their values are equal and exactly
    1 when [a] is above [b]; and swapping the arguments negates the
    result. *)
Theorem compareVectors_sign (a b : b32) :
  b32_finite a = true → b32_finite b = true →
  (b32_ulps a < b32_ulps b → compareVectors a b = -1)
  ∧ (b32_ulps a = b32_ulps b → compareVectors a b = 0)
  ∧ (b32_ulps a > b32_ulps b → compareVectors a b = 1)
  ∧ compareVectors a b = - compareVectors b a.
Proof.
  intros Ha Hb. unfold compareVectors. simpl f_gt. simpl f_lt. unfold SFltb.
  rewrite (SFcompare_ulps a b Ha Hb), (SFcompare_ulps b a Hb Ha).
  rewrite (Z.compare_antisym (b32_ulps a) (b32_ulps b)).
  destruct (Z.compare_spec (b32_ulps a) (b32_ulps b)); simpl; lia.
Qed.

Lemma compareVectors_sign_witness :
  compareVectors (f_of_int (F := b32) 3) (f_of_int 5) = -1
  ∧ compareVectors (S754_zero true) (S754_zero false) = 0
  ∧ compareVectors (f_of_int (F := b32) 5) (f_of_int (-3)) = 1.
Proof.
  split; [| split].
  - apply (compareVectors_sign (f_of_int 3) (f_of_int 5));
      [reflexivity | reflexivity | vm_compute; reflexivity].
  - apply (compareVectors_sign (S754_zero true) (S754_zero false));
      reflexivity.
  - apply (compareVectors_sign (f_of_int 5) (f_of_int (-3)));
      [reflexivity | reflexivity | vm_compute; reflexivity].
Defined.

(** A NaN is neither below nor above any value: the comparator returns 0
    for it whatever the other argument. *)
Example compareVectors_nan :
  compareVectors S754_nan (f_of_int (F := b32) 1) = 0
  ∧ compareVectors (f_of_int (F := b32) 1) S754_nan = 0.
Proof. split; reflexivity. Qed.

(** ** scaleVector onto a collapsed target range *)

(** In exact arithmetic the scale is 0, the offset is the common target
    bound, and every element of the result is that bound. *)
Lemma scaleVector_degenerate_target_Qc (vector : list Qc) (lowerBound upperBound c : Qc) :
  upperBound ≠ lowerBound →
  f_div (f_sub c c) (f_sub upperBound lowerBound) = 0%Qc
  ∧ f_sub c (f_mul 0%Qc lowerBound) = c
  ∧ scaleVector vector (Z.of_nat (length vector)) lowerBound upperBound c c
    = Some (replicate (length vector) c).
Proof.
  intros Hne. simpl.
  assert (Hd : (upperBound - lowerBound)%Qc ≠ 0%Qc).
  { intros Hd. apply Hne. rewrite <- (Qcplus_0_l lowerBound), <- Hd. ring. }
  split; [by field |]. split; [ring |].
  rewrite scaleVector_map. f_equal.
  induction vector as [|x vector IH]; [done |].
  simpl. f_equal; [| exact IH]. by field.
Qed.

(** *** Rounding never turns a non-zero value into zero or NaN *)

Section RoundingB32.

Lemma shr_1_m (mrs : shr_record) :
  0 <= shr_m mrs → shr_m (shr_1 mrs) = shr_m mrs / 2.
Proof.
  destruct mrs as [m r s]. simpl shr_m at 1 3. intros Hm.
  destruct m as [|p|p]; [done | | lia].
  destruct p as [p|p|]; simpl; lia.
Qed.

Lemma shr_iter_m (p : positive) (mrs : shr_record) :
  0 <= shr_m mrs →
  shr_m (SpecFloat.iter_pos shr_1 p mrs) = shr_m mrs / 2 ^ Z.pos p.
Proof.
  revert mrs. induction p as [p IH | p IH |]; intros mrs Hm; simpl.
  - assert (0 < 2 ^ Z.pos p) by (apply Z.pow_pos_nonneg; lia).
    assert (0 <= shr_m (shr_1 mrs)) by (rewrite shr_1_m by done; lia).
    assert (0 <= shr_m (SpecFloat.iter_pos shr_1 p (shr_1 mrs)))
      by (rewrite IH by done; apply Z.div_pos; lia).
    rewrite !IH, shr_1_m by done.
    rewrite !Z.div_div by lia. f_equal.
    replace (Z.pos p~1) with (1 + (Z.pos p + Z.pos p)) by lia.
    rewrite !Z.pow_add_r by lia. done.
  - assert (0 < 2 ^ Z.pos p) by (apply Z.pow_pos_nonneg; lia).
    assert (0 <= shr_m (SpecFloat.iter_pos shr_1 p mrs))
      by (rewrite IH by done; apply Z.div_pos; lia).
    rewrite !IH by done.
    rewrite !Z.div_div by lia. f_equal.
    replace (Z.pos p~0) with (Z.pos p + Z.pos p) by lia.
    rewrite Z.pow_add_r by lia. done.
  - by apply shr_1_m.
Qed.

Lemma shr_record_of_loc_m (m : Z) (l : location) :
  shr_m (shr_record_of_loc m l) = m.
Proof. by destruct l as [|[]]. Qed.

(** Shifting a positive mantissa down to the format keeps it positive. *)
Lemma shr_fexp_pos (m : positive) (e : Z) (l : location) :
  -149 <= e →
  0 < shr_m (shr_fexp b32_prec b32_emax (Z.pos m) e l).1
  ∧ -149 <= (shr_fexp b32_prec b32_emax (Z.pos m) e l).2.
Proof.
  intros He. unfold shr_fexp, shr, fexp, emin, b32_prec, b32_emax.
  simpl Zdigits2.
  pose proof (digits2_pos_bounds m) as [Hlo _].
  destruct (Z.max (Z.pos (digits2_pos m) + e - 24) (3 - 128 - 24) - e)
    as [|n|n] eqn:Hn; simpl fst; simpl snd.
  - rewrite shr_record_of_loc_m. lia.
  - rewrite shr_iter_m by (rewrite shr_record_of_loc_m; lia).
    rewrite shr_record_of_loc_m. split; [| lia].
    apply Z.div_str_pos. split; [apply Z.pow_pos_nonneg; lia |].
    etransitivity; [| exact Hlo]. apply Z.pow_le_mono_r; lia.
  - rewrite shr_record_of_loc_m. lia.
Qed.

Lemma round_nearest_even_ge (m : Z) (l : location) :
  m <= round_nearest_even m l.
Proof. destruct l as [|[]]; simpl; try lia. destruct (Z.even m); lia. Qed.

Lemma binary_round_aux_number (s : bool) (m : positive) (e : Z) (l : location) :
  -149 <= e →
  (∃ m' e', binary_round_aux b32_prec b32_emax s (Z.pos m) e l
            = S754_finite s m' e')
  ∨ binary_round_aux b32_prec b32_emax s (Z.pos m) e l = S754_infinity s.
Proof.
  intros He. unfold binary_round_aux.
  destruct (shr_fexp_pos m e l He) as [Hm1 He1].
  destruct (shr_fexp b32_prec b32_emax (Z.pos m) e l) as [mrs1 e1].
  simpl in Hm1, He1.
  pose proof (round_nearest_even_ge (shr_m mrs1) (loc_of_shr_record mrs1)) as Hr.
  destruct (round_nearest_even (shr_m mrs1) (loc_of_shr_record mrs1))
    as [|m2|m2]; [lia | | lia].
  destruct (shr_fexp_pos m2 e1 loc_Exact He1) as [Hm2 _].
  destruct (shr_fexp b32_prec b32_emax (Z.pos m2) e1 loc_Exact) as [mrs2 e2].
  simpl in Hm2. destruct (shr_m mrs2) as [|m3|m3]; [lia | | lia].
  destruct (e2 <=? b32_emax - b32_prec); [left; eauto | by right].
Qed.

Lemma shl_align_exponent (m : positive) (e e' : Z) :
  -149 <= e → -149 <= e' → -149 <= (shl_align m e e').2.
Proof. intros He He'. unfold shl_align. by destruct (e' - e). Qed.

Lemma binary_normalize_number (z e : Z) (szero : bool) :
  z ≠ 0 → -149 <= e →
  ∃ s, (∃ m' e', binary_normalize b32_prec b32_emax z e szero
                 = S754_finite s m' e')
       ∨ binary_normalize b32_prec b32_emax z e szero = S754_infinity s.
Proof.
  intros Hz He.
  assert (Hround : ∀ s m,
    (∃ m' e', binary_round b32_prec b32_emax s m e = S754_finite s m' e')
    ∨ binary_round b32_prec b32_emax s m e = S754_infinity s).
  { intros s m. unfold binary_round.
    pose proof (shl_align_exponent m e
      (fexp b32_prec b32_emax (Z.pos (digits2_pos m) + e)) He) as Hs.
    destruct (shl_align m e _) as [mz ez]. simpl in Hs.
    apply binary_round_aux_number, Hs.
    unfold fexp, emin, b32_prec, b32_emax. lia. }
  destruct z as [|m|m]; [done | |]; simpl.
  - exists false. apply Hround.
  - exists true. apply Hround.
Qed.

Lemma shl_align_value (m : positive) (e e' : Z) :
  e' <= e → Z.pos (shl_align m e e').1 = Z.pos m * 2 ^ (e - e').
Proof.
  intros Hle. unfold shl_align.
  destruct (e' - e) as [|d|d] eqn:Hd; simpl; [| lia |].
  - replace (e - e') with 0 by lia. lia.
  - replace (e - e') with (Z.pos d) by lia.
    change (Pos.iter xO m d) with (shift_pos d m).
    rewrite shift_pos_correct. change (Z.pow_pos 2 d) with (2 ^ Z.pos d). lia.
Qed.

End RoundingB32.

(** *** The pieces of [scaleVector] when the target range has collapsed *)

Section DegenerateTarget.

(** [c - c] is a zero. *)
Lemma SFsub_diag (c : b32) :
  b32_finite c = true → ∃ s, f_sub c c = S754_zero s.
Proof.
  destruct c as [s | s | | s m e]; try discriminate; intros _; simpl.
  - destruct s; eauto.
  - rewrite Z.sub_diag. simpl. eauto.
Qed.

Lemma ulps_aligned (s : bool) (m : positive) (e ez : Z) :
  -149 <= ez <= e →
  b32_ulps (S754_finite s m e)
  = cond_Zopp s (Z.pos (shl_align m e ez).1) * 2 ^ (ez + 149).
Proof.
  intros He. rewrite shl_align_value by lia.
  unfold b32_ulps, emin, b32_prec, b32_emax.
  replace (e - (3 - 128 - 24)) with ((e - ez) + (ez + 149)) by lia.
  rewrite Z.pow_add_r by lia. destruct s; simpl; lia.
Qed.

(** The difference of two finite numbers of different value is a
    non-zero number or an infinity. *)
Lemma SFsub_number (a b : b32) :
  b32_finite a = true → b32_finite b = true → b32_ulps a ≠ b32_ulps b →
  ∃ s, (∃ m e, f_sub a b = S754_finite s m e) ∨ f_sub a b = S754_infinity s.
Proof.
  destruct a as [sa | sa | | sa ma ea], b as [sb | sb | | sb mb eb];
    try discriminate; simpl b32_finite; intros Ha Hb Hne.
  - done.
  - exists (negb sb). left. simpl. eauto.
  - exists sa. left. simpl. eauto.
  - destruct (bounded_b32 ma ea Ha) as (Hea & _).
    destruct (bounded_b32 mb eb Hb) as (Heb & _).
    simpl f_sub. unfold SFsub. apply binary_normalize_number; [| lia].
    intros Hz. apply Hne.
    rewrite (ulps_aligned sa ma ea (Z.min ea eb)) by lia.
    rewrite (ulps_aligned sb mb eb (Z.min ea eb)) by lia.
    f_equal. lia.
Qed.

(** With a zero scale, each element comes out as the target bound. *)
Lemma degenerate_element (x lb c z d : b32) :
  b32_finite x = true → b32_finite lb = true → b32_finite c = true →
  (∃ s, z = S754_zero s) →
  (∃ s, (∃ m e, d = S754_finite s m e) ∨ d = S754_infinity s) →
  let y := f_add (f_mul x (f_div z d)) (f_sub c (f_mul (f_div z d) lb)) in
  b32_finite y = true ∧ b32_ulps y = b32_ulps c
  ∧ ((∀ s, c ≠ S754_zero s) → y = c).
Proof.
  intros Hx Hlb Hc [sz ->] [sd [(md & ed & ->) | ->]];
    destruct x as [sx | sx | | sx mx ex]; try discriminate;
    destruct lb as [sl | sl | | sl ml el]; try discriminate;
    destruct c as [sc | sc | | sc mc ec]; try discriminate;
    simpl; (split; [| split]); try done;
    try (intros Hnz; by destruct (Hnz sc));
    by repeat match goal with |- context [xorb ?a ?b] => destruct a, b; simpl
                            | |- context [if ?a then _ else _] => destruct a; simpl
              end.
Qed.

End DegenerateTarget.

(** C10 as the code has it in binary32.  For a vector of finite numbers,
    finite source bounds of different value and a finite common target
    bound [c], [scaleVector] returns a vector of the same length; the scale
    is a zero, and every element is finite and has the value of [c] (it is
    [c] itself unless [c] is a zero, whose sign may change). *)
Theorem scaleVector_degenerate_target (vector : list b32) (len : Z)
    (lowerBound upperBound c : b32) :
  Z.of_nat (length vector) = len →
  Forall (λ x, b32_finite x = true) vector →
  b32_finite lowerBound = true → b32_finite upperBound = true →
  b32_finite c = true →
  b32_ulps upperBound ≠ b32_ulps lowerBound →
  ∃ scaled,
    scaleVector vector len lowerBound upperBound c c = Some scaled
    ∧ Z.of_nat (length scaled) = len
    ∧ (∃ s, f_div (f_sub c c) (f_sub upperBound lowerBound) = S754_zero s)
    ∧ Forall (λ y, b32_finite y = true ∧ b32_ulps y = b32_ulps c
                   ∧ ((∀ s, c ≠ S754_zero s) → y = c)) scaled.
Proof.
  intros <- Hvec Hlb Hub Hc Hne. rewrite scaleVector_map.
  destruct (SFsub_diag c Hc) as [sz Hz].
  pose proof (SFsub_number upperBound lowerBound Hub Hlb Hne) as Hd.
  eexists. split; [done |]. split; [by rewrite length_fmap |]. split.
  - rewrite Hz. destruct Hd as [sd [(md & ed & ->) | ->]]; simpl; eauto.
  - apply Forall_fmap. eapply Forall_impl; [exact Hvec |].
    intros x Hx. simpl. apply degenerate_element; eauto.
Qed.

Lemma scaleVector_degenerate_target_witness :
  ∃ scaled,
    scaleVector (F := b32) (f_of_int <$> [1; 2; 3]) 3
                (f_of_int 1) (f_of_int 5) (f_of_int 7) (f_of_int 7)
      = Some scaled
    ∧ scaled = f_of_int <$> [7; 7; 7].
Proof.
  destruct (scaleVector_degenerate_target (f_of_int <$> [1; 2; 3]) 3
              (f_of_int 1) (f_of_int 5) (f_of_int 7))
    as (scaled & Hrun & _); [reflexivity | | reflexivity | reflexivity
                             | reflexivity | vm_compute; discriminate |].
  - repeat constructor.
  - exists scaled. split; [exact Hrun |].
    vm_compute in Hrun. injection Hrun as <-. vm_compute. reflexivity.
Defined.

(** C10 as stated admits any source bounds that differ.  With the lower
    bound at minus infinity the scale is still a zero, but the offset
    [1 - 0 * (-inf)] is NaN, and so is every element of the result. *)
Lemma scaleVector_infinite_bound :
  b32_finite (f_of_int 2) = true
  ∧ SFeqb (f_of_int 0) (S754_infinity true) = false
  ∧ scaleVector (F := b32) [f_of_int 2] 1 (S754_infinity true) (f_of_int 0)
                (f_of_int 1) (f_of_int 1) = Some [S754_nan]
  ∧ SFeqb S754_nan (f_of_int 1) = false.
Proof. split_and!; vm_compute; reflexivity. Qed.

(** ** The round trip of scaleVector in binary32 *)

(** *** Operations that do not round *)

Section ExactB32.









End ExactB32.




(** * Further properties of the code *)

(** ** Loops that meet an undefined step *)

(** A loop has no result as soon as one of its iterations has none,
    whatever the iterations before it did. *)
Lemma for_up_fails {St : Type} (body : Z → St → option St)
    (k n : nat) (lo : Z) (s : St) :
  (k < n)%nat → (∀ t, body (lo + Z.of_nat k) t = None) →
  for_up n lo body s = None.
Proof.
  revert n lo s. induction k as [|k IH]; intros n lo s Hk Hfail;
    (destruct n as [|n]; [lia |]); simpl.
  - rewrite Z.add_0_r in Hfail. by rewrite Hfail.
  - destruct (body lo s) as [t|]; simpl; [| done].
    apply IH; [lia |]. intros u.
    replace (lo + 1 + Z.of_nat k) with (lo + Z.of_nat (S k)) by lia.
    apply Hfail.
Qed.

Lemma for_down_fails {St : Type} (body : Z → St → option St)
    (k n : nat) (hi : Z) (s : St) :
  (k < n)%nat → (∀ t, body (hi - Z.of_nat k) t = None) →
  for_down n hi body s = None.
Proof.
  revert n hi s. induction k as [|k IH]; intros n hi s Hk Hfail;
    (destruct n as [|n]; [lia |]); simpl.
  - rewrite Z.sub_0_r in Hfail. by rewrite Hfail.
  - destruct (body hi s) as [t|]; simpl; [| done].
    apply IH; [lia |]. intros u.
    replace (hi - 1 - Z.of_nat k) with (hi - Z.of_nat (S k)) by lia.
    apply Hfail.
Qed.

(** Two loop bodies that agree on the indices visited give the same
    loop. *)
Lemma for_up_ext {St : Type} (body1 body2 : Z → St → option St)
    (n : nat) (lo : Z) (s : St) :
  (∀ i t, lo <= i < lo + Z.of_nat n → body1 i t = body2 i t) →
  for_up n lo body1 s = for_up n lo body2 s.
Proof.
  revert lo s. induction n as [|n IH]; intros lo s Heq; [done |].
  simpl. rewrite Heq by lia. destruct (body2 lo s) as [t|]; simpl; [| done].
  apply IH. intros i u Hi. apply Heq. lia.
Qed.

Section Bounds.
Context {F : Type} `{FloatArith F} `{FreshMemory F}.
Implicit Types (df : csvData_t F) (v : list F).

(** No row of a well-formed table has a cell at a column index outside
    [0, cols). *)
Lemma cell_outside_columns df (row col : Z) :
  table_wf df = true → ¬ (0 <= col < cols df) → cell df row col = None.
Proof.
  intros Hwf Hcol. destruct (table_wf_dims df Hwf) as (_ & Hrect & _).
  unfold cell. destruct ((0 <=? row) && (0 <=? col)) eqn:Hguard; [| done].
  apply andb_prop in Hguard as [_ Hc]. apply Z.leb_le in Hc.
  destruct (dataFrame df !! Z.to_nat row) as [r|] eqn:Hr; simpl; [| done].
  rewrite Forall_lookup in Hrect. specialize (Hrect _ _ Hr).
  apply lookup_ge_None_2. lia.
Qed.

(** No cell lies in a row outside [0, rows). *)
Lemma cell_outside_rows df (row col : Z) :
  table_wf df = true → ¬ (0 <= row < rows df) → cell df row col = None.
Proof.
  intros Hwf Hrow. destruct (table_wf_dims df Hwf) as (Hrows & _).
  unfold cell. destruct ((0 <=? row) && (0 <=? col)) eqn:Hguard; [| done].
  apply andb_prop in Hguard as [Hr _]. apply Z.leb_le in Hr.
  rewrite lookup_ge_None_2 by lia. done.
Qed.

(** Printing a row that is not in the table has no defined result as soon
    as the table has a column. *)
Lemma print_row_outside df (row : Z) (piece : string → F → string)
    (close : string → string) (out : string) :
  table_wf df = true → 1 <= cols df → ¬ (0 <= row < rows df) →
  (o ← for_lt 0 (cols df)
         (λ col o, x ← cell df row col; Some (piece o x)) out;
   Some (close o)) = None.
Proof.
  intros Hwf Hcols Hrow. unfold for_lt.
  rewrite (for_up_fails _ 0) ; [done | lia |].
  intros t. by rewrite cell_outside_rows.
Qed.

End Bounds.

(** ** Column indices outside the table *)

(** On a well-formed table with at least one row, a column index outside
    [0, cols) makes [mean], [standardDeviation] and [median] read past a
    row: none of them has a defined result. *)
Theorem statistics_column_out_of_range {F : Type} `{FloatArith F}
    `{FreshMemory F} (df : csvData_t F) (col : Z) :
  table_wf df = true → 1 <= rows df → ¬ (0 <= col < cols df) →
  mean df col = None
  ∧ standardDeviation df col = None
  ∧ median df col = None.
Proof.
  intros Hwf Hrows Hcol.
  assert (Hmean : mean df col = None).
  { unfold mean, for_lt. rewrite (for_up_fails _ 0); [done | lia |].
    intros t. by rewrite cell_outside_columns. }
  split; [exact Hmean |]. split.
  - unfold standardDeviation. by rewrite Hmean.
  - unfold median, createFloatVector.
    destruct (malloc_floats_length (Z.to_nat (rows df))) as (buf & Hbuf & _).
    rewrite Z2Nat.id in Hbuf by lia. rewrite Hbuf. simpl.
    unfold for_lt. rewrite (for_up_fails _ 0); [done | lia |].
    intros t. by rewrite cell_outside_columns.
Qed.

Lemma statistics_column_out_of_range_witness :
  mean (table_of (F := b32) [[5; 6]; [1; 2]]) 2 = None
  ∧ standardDeviation (table_of (F := b32) [[5; 6]; [1; 2]]) 2 = None
  ∧ median (table_of (F := b32) [[5; 6]; [1; 2]]) 2 = None.
Proof.
  apply (statistics_column_out_of_range (table_of (F := b32) [[5; 6]; [1; 2]]) 2);
    [reflexivity | simpl; lia | simpl; lia].
Defined.

(** ** A table without rows *)

(** With [rows = 0] no cell is read by [mean] and [standardDeviation]: in
    binary32 both return [0 / 0], a NaN.  [median] reads row 0 and row -1 and
    has no defined result. *)
Theorem statistics_no_rows (df : csvData_t b32) (col : Z) :
  rows df = 0 →
  mean df col = Some S754_nan
  ∧ standardDeviation df col = Some S754_nan
  ∧ median df col = None.
Proof.
  intros Hrows. unfold standardDeviation, median, mean, createFloatVector.
  rewrite Hrows. split; [done |]. split; [done |].
  unfold malloc_floats, for_lt, qsort, int_rem, int_quot, int_sub. simpl.
  by destruct (cell df (Z.quot 0 2) col).
Qed.

Lemma statistics_no_rows_witness :
  mean (mk_csv (F := b32) 0 3 []) 1 = Some S754_nan
  ∧ standardDeviation (mk_csv (F := b32) 0 3 []) 1 = Some S754_nan
  ∧ median (mk_csv (F := b32) 0 3 []) 1 = None.
Proof. apply (statistics_no_rows (mk_csv 0 3 []) 1). reflexivity. Defined.

(** ** head and tail beyond the table *)

(** On a well-formed table with at least one column, asking for more lines
    than the table has rows makes [head] read the row after the last one
    and [tail] the row before the first one: neither has a defined
    result. *)
Theorem head_tail_beyond_rows {F : Type} `{FloatArith F} `{FloatPrint F}
    (df : csvData_t F) (lines : Z) (out : string) :
  table_wf df = true → 1 <= cols df → rows df < lines →
  head df lines out = None ∧ tail df lines out = None.
Proof.
  intros Hwf Hcols Hlines.
  destruct (table_wf_dims df Hwf) as (Hrows & _ & Hr & _).
  split.
  - unfold head, for_lt.
    rewrite (for_up_fails _ (Z.to_nat (rows df))); [done | lia |].
    intros t. rewrite Z.add_0_l.
    apply (print_row_outside df _ (λ o x, o +:+ printf_f 10 3 x +:+ tab)
             (λ o, o +:+ " " +:+ nl)); [done | done | lia].
  - unfold tail.
    destruct (int_sub (rows df) 1) as [first|] eqn:Hfirst; simpl; [| done].
    destruct (int_sub (rows df) lines) as [b|] eqn:Hb; simpl; [| done].
    destruct (int_sub b 1) as [bound|] eqn:Hbound; simpl; [| done].
    unfold int_sub in Hfirst, Hb, Hbound.
    destruct (in_int (rows df - 1)); [| done].
    destruct (in_int (rows df - lines)); [| done].
    destruct (in_int (b - 1)); [| done].
    injection Hfirst as <-. injection Hb as <-. injection Hbound as <-.
    unfold for_gt.
    rewrite (for_down_fails _ (Z.to_nat (rows df))); [done | lia |].
    intros t.
    apply (print_row_outside df _ (λ o x, o +:+ printf_f 10 2 x +:+ " ")
             (λ o, o +:+ " " +:+ nl)); [done | done | lia].
Qed.

Lemma head_tail_beyond_rows_witness :
  head (table_of (F := Qc) [[5; 6]; [1; 2]; [3; 4]]) 4 "" = None
  ∧ tail (table_of (F := Qc) [[5; 6]; [1; 2]; [3; 4]]) 4 "" = None.
Proof.
  apply (head_tail_beyond_rows (table_of (F := Qc) [[5; 6]; [1; 2]; [3; 4]]) 4 "");
    [reflexivity | simpl; lia | simpl; lia].
Defined.

(** ** randomDataStream and the generator *)

(** Every element costs two draws, one for the row and one for the column:
    after the call the generator stands [2 * n] draws behind the state
    [srand] installed. *)
Theorem randomDataStream_draws_twice_per_element {F : Type} `{FloatArith F}
    `{FreshMemory F} `{LibcRand} (now : Z) (df : csvData_t F) (n : Z) :
  rand_in_range →
  table_wf df = true → 1 <= rows df → 1 <= cols df → 0 <= n →
  ∃ stream,
    randomDataStream now df n
    = Some (stream,
            Nat.iter (2 * Z.to_nat n) (λ g, (rand g).2) (srand now)).
Proof.
  intros Hrand Hwf Hrows Hcols Hn. unfold randomDataStream.
  destruct (malloc_floats_length (Z.to_nat n)) as (buf & Hbuf & Hlen).
  rewrite Z2Nat.id in Hbuf by done. rewrite Hbuf. simpl. unfold for_lt.
  pose (P := λ (i : Z) (st : list F * rand_state),
       length st.1 = Z.to_nat n
       ∧ st.2 = Nat.iter (2 * Z.to_nat i) (λ g, (rand g).2) (srand now)).
  match goal with |- context [for_up ?k ?lo ?body ?s] =>
    destruct (for_up_inv P body k lo s) as ([stream g] & Hrun & Hl & Hg)
  end.
  - done.
  - intros i [st g] Hi [Hl Hg]. cbn [fst snd] in Hl, Hg.
    pose proof (Hrand g) as Hr1.
    destruct (rand g) as [r1 g1] eqn:Hd1. simpl in Hr1.
    destruct (int_rem_draw r1 (rows df) Hr1 Hrows) as (xi & -> & Hxi). simpl.
    pose proof (Hrand g1) as Hr2.
    destruct (rand g1) as [r2 g2] eqn:Hd2. simpl in Hr2.
    destruct (int_rem_draw r2 (cols df) Hr2 Hcols) as (yi & -> & Hyi). simpl.
    destruct (cell_in_range df xi yi Hwf Hxi Hyi) as [x Hx]. rewrite Hx. simpl.
    rewrite store_Some by lia. simpl. eexists. split; [done |].
    unfold P. cbn [fst snd]. split; [by rewrite length_insert |].
    replace (2 * Z.to_nat (i + 1))%nat with (S (S (2 * Z.to_nat i))) by lia.
    rewrite !Nat.iter_succ, <- Hg, Hd1. cbn [snd]. by rewrite Hd2.
  - exists stream. rewrite Hrun. cbn [fst snd] in Hg. rewrite Hg.
    do 3 f_equal. lia.
Qed.

Lemma randomDataStream_draws_twice_per_element_witness :
  ∃ stream,
    randomDataStream (F := b32) 7 (table_of [[5; 6]; [1; 2]; [3; 4]]) 2
    = Some (stream,
            Nat.iter 4 (λ g, (rand g).2) (srand 7)).
Proof.
  apply (randomDataStream_draws_twice_per_element (F := b32) 7
           (table_of [[5; 6]; [1; 2]; [3; 4]]) 2);
    [| reflexivity | simpl; lia | simpl; lia | lia].
  intros g. simpl. unfold RAND_MAX.
  pose proof (Z.mod_pos_bound (1103515245 * g + 12345) (2 ^ 31)). lia.
Defined.

(** Sampling at least one element from a table without rows, or without
    columns, takes a remainder by zero: there is no defined result. *)
Theorem randomDataStream_empty_table {F : Type} `{FloatArith F}
    `{FreshMemory F} `{LibcRand} (now : Z) (df : csvData_t F) (n : Z) :
  rows df = 0 ∨ cols df = 0 → 1 <= n →
  randomDataStream now df n = None.
Proof.
  intros Hempty Hn. unfold randomDataStream.
  destruct (malloc_floats_length (Z.to_nat n)) as (buf & Hbuf & _).
  rewrite Z2Nat.id in Hbuf by lia. rewrite Hbuf. simpl. unfold for_lt.
  rewrite (for_up_fails _ 0); [done | lia |].
  intros [st g]. destruct (rand g) as [r1 g1].
  destruct Hempty as [-> | ->]; [done |].
  destruct (int_rem r1 (rows df)); simpl; [| done].
  by destruct (rand g1).
Qed.

Lemma randomDataStream_empty_table_witness :
  randomDataStream (F := b32) 7 (mk_csv 0 2 []) 1 = None.
Proof.
  apply (randomDataStream_empty_table (F := b32) 7 (mk_csv 0 2 []) 1);
    [by left | lia].
Defined.

(** ** The length argument of the rescaling functions *)

Section VectorLength.
Context {F : Type} `{FloatArith F} `{FreshMemory F}.
Implicit Types (v buf : list F).

(** A loop over the first [len] elements reads nothing behind them. *)
Lemma for_lt_store_prefix (f : F → F) v buf (len : nat) :
  (len ≤ length v)%nat → length buf = len →
  for_lt 0 (Z.of_nat len) (λ i b, x ← load v i; store b i (f x)) buf
  = Some (f <$> take len v).
Proof.
  intros Hlen Hbuf.
  rewrite <- (for_lt_store_map f (take len v) buf)
    by (rewrite length_take; lia).
  rewrite length_take, Nat.min_l by done.
  unfold for_lt. apply for_up_ext. intros i b Hi.
  unfold load. destruct (0 <=? i); [| done].
  rewrite lookup_take_lt by lia. done.
Qed.

(** A loop that runs past the end of the vector has no result. *)
Lemma for_lt_store_overrun (f : F → F) v buf (len : Z) :
  Z.of_nat (length v) < len →
  for_lt 0 len (λ i b, x ← load v i; store b i (f x)) buf = None.
Proof.
  intros Hlen. unfold for_lt.
  rewrite (for_up_fails _ (length v)); [done | lia |].
  intros t. unfold load.
  replace (0 <=? 0 + Z.of_nat (length v)) with true by guard_holds.
  rewrite lookup_ge_None_2 by lia. done.
Qed.

End VectorLength.

(** With a length argument between 0 and the vector's length both
    rescaling functions succeed, transform exactly the first [vectorLen]
    elements and return a vector of that length; what lies behind those
    elements is not read. *)
Theorem scale_prefix {F : Type} `{FloatArith F} `{FreshMemory F}
    (vector : list F) (vectorLen : Z)
    (lowerBound upperBound newLowBound newUpBound : F) :
  0 <= vectorLen <= Z.of_nat (length vector) →
  let scale := f_div (f_sub newUpBound newLowBound)
                     (f_sub upperBound lowerBound) in
  let offset := f_sub newLowBound (f_mul scale lowerBound) in
  scaleToUnity vector vectorLen lowerBound upperBound
  = Some ((λ x, f_div x (f_sub upperBound lowerBound))
            <$> take (Z.to_nat vectorLen) vector)
  ∧ scaleVector vector vectorLen lowerBound upperBound newLowBound newUpBound
    = Some ((λ x, f_add (f_mul x scale) offset)
              <$> take (Z.to_nat vectorLen) vector)
  ∧ Z.of_nat (length (take (Z.to_nat vectorLen) vector)) = vectorLen.
Proof.
  intros Hlen scale offset.
  destruct (Z_of_nat_complete vectorLen) as [k ->]; [lia |].
  rewrite Nat2Z.id.
  assert (Htake : length (take k vector) = k) by (rewrite length_take; lia).
  unfold scaleToUnity, scaleVector.
  destruct (malloc_floats_length k) as (buf & -> & Hl). simpl.
  rewrite !for_lt_store_prefix by (done || lia).
  split; [done |]. split; [done |]. by rewrite Htake.
Qed.

Lemma scale_prefix_witness :
  scaleToUnity (F := b32) (f_of_int <$> [1; 2; 3; 4; 5]) 2
               (f_of_int 1) (f_of_int 5)
  = Some [f_div (f_of_int 1) (f_of_int 4); f_div (f_of_int 1) (f_of_int 2)]
  ∧ scaleVector (F := b32) (f_of_int <$> [1; 2; 3; 4; 5]) 2
                (f_of_int 1) (f_of_int 5) (f_of_int 0) (f_of_int 1)
    = Some [f_of_int 0; f_div (f_of_int 1) (f_of_int 4)].
Proof.
  destruct (scale_prefix (F := b32) (f_of_int <$> [1; 2; 3; 4; 5]) 2
              (f_of_int 1) (f_of_int 5) (f_of_int 0) (f_of_int 1))
    as (-> & -> & _); [simpl; lia |].
  split; vm_compute; reflexivity.
Defined.

(** With a length argument above the vector's length both rescaling
    functions read behind the vector: neither has a defined result. *)
Theorem scale_overrun {F : Type} `{FloatArith F} `{FreshMemory F}
    (vector : list F) (vectorLen : Z)
    (lowerBound upperBound newLowBound newUpBound : F) :
  Z.of_nat (length vector) < vectorLen →
  scaleToUnity vector vectorLen lowerBound upperBound = None
  ∧ scaleVector vector vectorLen lowerBound upperBound newLowBound newUpBound
    = None.
Proof.
  intros Hlen. unfold scaleToUnity, scaleVector.
  destruct (malloc_floats_length (Z.to_nat vectorLen)) as (buf & Hbuf & _).
  rewrite Z2Nat.id in Hbuf by lia. rewrite Hbuf. simpl.
  by rewrite !for_lt_store_overrun.
Qed.

Lemma scale_overrun_witness :
  scaleToUnity (F := b32) (f_of_int <$> [1; 2]) 3 (f_of_int 1) (f_of_int 5)
  = None
  ∧ scaleVector (F := b32) (f_of_int <$> [1; 2]) 3 (f_of_int 1) (f_of_int 5)
                (f_of_int 0) (f_of_int 1) = None.
Proof.
  apply (scale_overrun (F := b32) (f_of_int <$> [1; 2]) 3); simpl; lia.
Defined.

(** ** Equal source bounds in binary32 *)

(** Dividing by a zero leaves an infinity or a NaN, and so does every
    element computed from such a scale. *)
Lemma equal_bounds_element (x c newLowBound n : b32) (sz : bool) :
  b32_finite x = true → b32_finite c = true →
  let scale := f_div n (S754_zero sz) in
  let y := f_add (f_mul x scale) (f_sub newLowBound (f_mul scale c)) in
  (∃ s, y = S754_infinity s) ∨ y = S754_nan.
Proof.
  intros Hx Hc.
  destruct n as [sn | sn | | sn mn en];
    destruct c as [sc | sc | | sc mc ec]; try discriminate;
    destruct x as [sx | sx | | sx mx ex]; try discriminate;
    destruct newLowBound as [sl | sl | | sl ml el]; simpl; eauto;
    repeat match goal with
           | |- context [match ?b with true => _ | false => _ end] =>
               destruct b; simpl; eauto
           end.
Qed.

(** The rescaling functions do not reject equal source bounds.  In
    binary32 the divisor is then a zero: for finite inputs both functions
    return a vector of the requested length, and every one of its elements
    is an infinity or a NaN. *)
Theorem scale_equal_bounds_not_finite (vector : list b32) (len : Z)
    (c newLowBound newUpBound : b32) :
  Z.of_nat (length vector) = len →
  Forall (λ x, b32_finite x = true) vector → b32_finite c = true →
  ∃ unity scaled,
    scaleToUnity vector len c c = Some unity
    ∧ scaleVector vector len c c newLowBound newUpBound = Some scaled
    ∧ Z.of_nat (length unity) = len
    ∧ Z.of_nat (length scaled) = len
    ∧ Forall (λ y, (∃ s, y = S754_infinity s) ∨ y = S754_nan) unity
    ∧ Forall (λ y, (∃ s, y = S754_infinity s) ∨ y = S754_nan) scaled.
Proof.
  intros <- Hvec Hc. rewrite scaleToUnity_map, scaleVector_map.
  destruct (SFsub_diag c Hc) as [sz ->].
  do 2 eexists. split; [done |]. split; [done |].
  split; [by rewrite length_fmap |]. split; [by rewrite length_fmap |].
  split; apply Forall_fmap; (eapply Forall_impl; [exact Hvec |]);
    intros x Hx.
  - destruct x as [sx | sx | | sx mx ex]; try discriminate; simpl; eauto.
  - by apply equal_bounds_element.
Qed.

Lemma scale_equal_bounds_not_finite_witness :
  ∃ unity scaled,
    scaleToUnity (F := b32) (f_of_int <$> [0; 2]) 2 (f_of_int 3) (f_of_int 3)
      = Some unity
    ∧ scaleVector (F := b32) (f_of_int <$> [0; 2]) 2 (f_of_int 3) (f_of_int 3)
                  (f_of_int 0) (f_of_int 1) = Some scaled
    ∧ unity = [S754_nan; S754_infinity false]
    ∧ Z.of_nat (length scaled) = 2.
Proof.
  destruct (scale_equal_bounds_not_finite (f_of_int <$> [0; 2]) 2
              (f_of_int 3) (f_of_int 0) (f_of_int 1))
    as (unity & scaled & Hu & Hs & _ & Hl & _);
    [reflexivity | repeat constructor | reflexivity |].
  exists unity, scaled. split; [exact Hu |]. split; [exact Hs |].
  split; [| exact Hl]. vm_compute in Hu. by injection Hu as <-.
Defined.

(** ** compareVectors as a comparator for qsort *)

(** Swapping the arguments of a binary32 comparison mirrors its outcome,
    for all values. *)
Lemma SFcompare_swap (a b : b32) :
  SFcompare b a = CompOpp <$> SFcompare a b.
Proof.
  destruct a as [sa | sa | | sa ma ea], b as [sb | sb | | sb mb eb];
    simpl; try done; try (by destruct sa); try (by destruct sb);
    try (by destruct sa, sb).
  f_equal. destruct sa, sb; try done.
  - rewrite (Z.compare_antisym ea eb).
    destruct (ea ?= eb); simpl; try done.
    by rewrite (Pos.compare_cont_antisym ma mb Eq).
  - rewrite (Z.compare_antisym ea eb).
    destruct (ea ?= eb); simpl; try done.
    by rewrite (Pos.compare_cont_antisym ma mb Eq).
Qed.

(** On every pair of binary32 values, infinities and NaN included,
    [compareVectors] returns -1, 0 or 1 and swapping the arguments negates
    the result; against a NaN it returns 0 whatever the other value. *)
Theorem compareVectors_all_values (a b : b32) :
  compareVectors a b = - compareVectors b a
  ∧ -1 <= compareVectors a b <= 1
  ∧ compareVectors S754_nan a = 0
  ∧ compareVectors a S754_nan = 0.
Proof.
  unfold compareVectors. simpl f_gt. simpl f_lt. unfold SFltb.
  rewrite (SFcompare_swap a b).
  split; [| split; [| split]].
  - by destruct (SFcompare a b) as [[]|].
  - by destruct (SFcompare a b) as [[]|].
  - done.
  - by destruct a.
Qed.

Section Sorting.

Lemma compareVectors_le_value (a b : b32) :
  b32_finite a = true → b32_finite b = true →
  (compareVectors a b <=? 0) = true ↔ b32_ulps a <= b32_ulps b.
Proof.
  intros Ha Hb. unfold compareVectors. simpl f_gt. simpl f_lt. unfold SFltb.
  rewrite (SFcompare_ulps a b Ha Hb), Z.leb_le.
  destruct (Z.compare_spec (b32_ulps a) (b32_ulps b)); simpl; lia.
Qed.

Lemma qsort_insert_permutation (x : b32) (l : list b32) :
  Permutation (qsort_insert compareVectors x l) (x :: l).
Proof.
  induction l as [|y l IH]; simpl; [done |].
  destruct (compareVectors x y <=? 0); [done |].
  rewrite IH. apply perm_swap.
Qed.

Lemma qsort_insert_sorted (x : b32) (l : list b32) :
  b32_finite x = true → Forall (λ y, b32_finite y = true) l →
  StronglySorted by_value l →
  StronglySorted by_value (qsort_insert compareVectors x l).
Proof.
  intros Hx Hfin Hsorted.
  induction Hsorted as [|y l Hl IH Hy]; simpl.
  - repeat constructor.
  - apply Forall_cons in Hfin as [Hfy Hfl].
    destruct (compareVectors x y <=? 0) eqn:Hcmp.
    + apply compareVectors_le_value in Hcmp; [| done | done].
      constructor; [by constructor |].
      constructor; [done |].
      eapply Forall_impl; [exact Hy |]. unfold by_value. intros z Hz. lia.
    + assert (Hyx : b32_ulps y <= b32_ulps x).
      { destruct (decide (b32_ulps x <= b32_ulps y)) as [Hle |]; [| lia].
        apply (compareVectors_le_value x y Hx Hfy) in Hle. congruence. }
      constructor; [by apply IH |].
      rewrite qsort_insert_permutation. by constructor.
Qed.

(** Sorting finite binary32 values with [compareVectors] rearranges them
    into ascending order of value. *)
Theorem qsort_compareVectors_ascending (xs : list b32) :
  Forall (λ x, b32_finite x = true) xs →
  ∃ sorted,
    qsort xs (Z.of_nat (length xs)) compareVectors = Some sorted
    ∧ Permutation sorted xs
    ∧ StronglySorted (λ a b, b32_ulps a <= b32_ulps b) sorted.
Proof.
  intros Hfin. unfold qsort.
  replace ((0 <=? Z.of_nat (length xs))
           && (Z.of_nat (length xs) <=? Z.of_nat (length xs)))
    with true by guard_holds.
  rewrite Nat2Z.id, firstn_all, drop_all, app_nil_r.
  eexists. split; [done |].
  induction Hfin as [|x xs Hx Hfin [IHp IHs]]; simpl.
  - split; constructor.
  - split.
    + rewrite qsort_insert_permutation. by constructor.
    + apply qsort_insert_sorted; [done | | done].
      by rewrite IHp.
Qed.

Lemma qsort_compareVectors_ascending_witness :
  ∃ sorted,
    qsort (F := b32) (f_of_int <$> [5; 1; 3])
          (Z.of_nat (length (f_of_int (F := b32) <$> [5; 1; 3])))
          compareVectors = Some sorted
    ∧ Permutation sorted (f_of_int <$> [5; 1; 3])
    ∧ StronglySorted (λ a b, b32_ulps a <= b32_ulps b) sorted.
Proof.
  apply (qsort_compareVectors_ascending (f_of_int <$> [5; 1; 3])).
  repeat constructor.
Defined.

(** On finite values the comparator is consistent: "not above" is
    transitive, as [qsort] requires of its comparator. *)
Theorem compareVectors_transitive (a b c : b32) :
  b32_finite a = true → b32_finite b = true → b32_finite c = true →
  compareVectors a b <= 0 → compareVectors b c <= 0 →
  compareVectors a c <= 0.
Proof.
  intros Ha Hb Hc Hab Hbc.
  apply Z.leb_le, compareVectors_le_value in Hab; [| done | done].
  apply Z.leb_le, compareVectors_le_value in Hbc; [| done | done].
  apply Z.leb_le, compareVectors_le_value; [done | done | lia].
Qed.

Lemma compareVectors_transitive_witness :
  compareVectors (f_of_int (F := b32) 1) (f_of_int 5) <= 0.
Proof.
  apply (compareVectors_transitive (f_of_int 1) (f_of_int 3) (f_of_int 5));
    vm_compute; (reflexivity || discriminate).
Defined.

End Sorting.

(** ** The sign of what standardDeviation returns *)

Section SignB32.

Lemma binary_round_aux_not_negative (m e : Z) (l : location) :
  b32_not_negative (binary_round_aux b32_prec b32_emax false m e l) = true.
Proof.
  unfold binary_round_aux.
  destruct (shr_fexp b32_prec b32_emax m e l) as [mrs1 e1].
  destruct (shr_fexp b32_prec b32_emax _ e1 loc_Exact) as [mrs2 e2].
  destruct (shr_m mrs2); [done | | done].
  by destruct (e2 <=? b32_emax - b32_prec).
Qed.

Lemma binary_normalize_not_negative (z e : Z) :
  0 <= z →
  b32_not_negative (binary_normalize b32_prec b32_emax z e false) = true.
Proof.
  intros Hz. destruct z as [|p|p]; [done | | lia].
  simpl. unfold binary_round.
  destruct (shl_align p e _) as [mz ez].
  apply binary_round_aux_not_negative.
Qed.

(** A square has a clear sign bit, whatever was squared. *)
Lemma square_not_negative (d : b32) : b32_not_negative (f_mul d d) = true.
Proof.
  destruct d as [s | s | | s m e]; simpl f_mul; unfold SFmul;
    rewrite ?xorb_nilpotent; try done.
  apply binary_round_aux_not_negative.
Qed.

Lemma sum_not_negative (a b : b32) :
  b32_not_negative a = true → b32_not_negative b = true →
  b32_not_negative (f_add a b) = true.
Proof.
  destruct a as [sa | sa | | sa ma ea], b as [sb | sb | | sb mb eb];
    try done; simpl b32_not_negative; intros Ha Hb;
    apply negb_true_iff in Ha, Hb; subst; try done.
  simpl f_add. unfold SFadd. cbn [cond_Zopp].
  by apply binary_normalize_not_negative.
Qed.

Lemma quotient_not_negative (a c : b32) :
  b32_not_negative a = true → b32_not_negative c = true →
  b32_not_negative (f_div a c) = true.
Proof.
  destruct a as [sa | sa | | sa ma ea], c as [sc | sc | | sc mc ec];
    try done; simpl b32_not_negative; intros Ha Hc;
    apply negb_true_iff in Ha, Hc; subst; try done.
  simpl f_div. unfold SFdiv.
  destruct (SFdiv_core_binary _ _ _ _ _ _) as [[mz ez] lz].
  apply binary_round_aux_not_negative.
Qed.

Lemma not_negative_not_below_zero (v : b32) :
  b32_not_negative v = true → f_lt v (f_of_int 0) = false.
Proof. by destruct v as [[] | [] | | [] m e]. Qed.

End SignB32.

(** What [standardDeviation] computes, as a fold over the column. *)
Lemma standardDeviation_fold {F : Type} `{FloatArith F}
    (df : csvData_t F) (col : Z) :
  table_wf df = true → 0 <= col < cols df →
  standardDeviation df col
  = Some (f_div
            (foldl (λ sum x,
                      f_add sum
                        (f_mul (f_sub x (f_div (f_sum (column df col))
                                               (f_of_int (rows df))))
                               (f_sub x (f_div (f_sum (column df col))
                                               (f_of_int (rows df))))))
                   (f_of_int 0) (column df col))
            (f_of_int (rows df))).
Proof.
  intros Hwf Hcol. unfold standardDeviation.
  rewrite mean_column by done. cbn [mbind option_bind].
  by rewrite for_lt_column.
Qed.

(** In binary32, on every well-formed table and whatever its cells hold,
    the value [standardDeviation] returns is a NaN or has a clear sign bit:
    it is never below zero. *)
Theorem standardDeviation_never_negative (df : csvData_t b32) (col : Z) :
  table_wf df = true → 0 <= col < cols df →
  ∃ v, standardDeviation df col = Some v
       ∧ b32_not_negative v = true
       ∧ f_lt v (f_of_int 0) = false.
Proof.
  intros Hwf Hcol. rewrite standardDeviation_fold by done.
  destruct (table_wf_dims df Hwf) as (_ & _ & Hrows & _).
  eexists. split; [done |].
  match goal with |- b32_not_negative ?v = true ∧ _ =>
    assert (Hv : b32_not_negative v = true) end.
  { apply quotient_not_negative.
    - generalize (f_div (f_sum (column df col)) (f_of_int (rows df))).
      intros m.
      assert (Hacc : b32_not_negative (f_of_int (F := b32) 0) = true) by done.
      revert Hacc. generalize (f_of_int (F := b32) 0).
      induction (column df col) as [|x xs IH]; intros acc Hacc; [done |].
      simpl foldl. apply IH, sum_not_negative; [done |].
      apply square_not_negative.
    - apply binary_normalize_not_negative. lia. }
  split; [exact Hv |]. by apply not_negative_not_below_zero.
Qed.

Lemma standardDeviation_never_negative_witness :
  ∃ v, standardDeviation (table_of (F := b32) [[5; -6]; [1; 2]; [3; -4]]) 1
       = Some v
       ∧ b32_not_negative v = true
       ∧ f_lt v (f_of_int 0) = false.
Proof.
  apply (standardDeviation_never_negative
           (table_of [[5; -6]; [1; 2]; [3; -4]]) 1);
    [reflexivity | simpl; lia].
Defined.

(** ** What median returns *)


